(** * Arcadia Protocol: operation identifiers, the verify loop, the command
      line and the invoice contract

    A shallow embedding of
    - [backend/scripts/demo_verify.js] ([computeOpIdSingle],
      [computeOpIdBatch], [main]),
    - the timelock helper script ([parseArgs], [mkSalt], [cmdVerify]),
    - the [hashOperation] entry point that [ArcadiaTimelock] inherits,
    - [contracts/ArcadiaPay.sol] (every entry point, with the token ledger),
    together with the library functions they call (Keccak-256, hex strings,
    the ABI coder, OpenZeppelin's [Ownable] and [ERC20]).

    Conventions.  Exceptions are values of [result].  A name of the ethers
    library has the meaning it has in the version that is loaded; a name
    that version does not have is [undefined], and calling it throws.  The
    clock, the random source and the answers of the timelock are inputs of
    a run; the loop of [cmdVerify] is unfolded a bounded number of times.
    Numbers are exact integers.  A transaction of the contract is a value
    of [tx]: it returns, reverts with a reason or panics; a revert leaves
    the state as it was. *)

From Stdlib.Strings Require Import String Ascii Byte.
From Stdlib Require Import DecimalString.
From Stdlib Require Import ZArith List Bool Lia Permutation.
Import ListNotations.

Local Open Scope Z_scope.

Definition bytes := list byte.

(** ** Bytes and machine integers *)

Definition Z_of_byte (b : byte) : Z := Z.of_N (Byte.to_N b).

Definition byte_of_Z (z : Z) : byte :=
  match Byte.of_N (Z.to_N (z mod 256)) with
  | Some b => b
  | None => x00
  end.

(** [n] bytes, most significant first, of [z] (taken modulo [256^n]). *)
Fixpoint be_bytes (n : nat) (z : Z) : bytes :=
  match n with
  | O => []
  | S n' => be_bytes n' (z / 256) ++ [byte_of_Z z]
  end.

(** Value of a big-endian byte string. *)
Definition be_val (bs : bytes) : Z :=
  fold_left (fun acc b => 256 * acc + Z_of_byte b) bs 0.

(** [n] bytes, least significant first. *)
Fixpoint le_bytes (n : nat) (z : Z) : bytes :=
  match n with
  | O => []
  | S n' => byte_of_Z z :: le_bytes n' (z / 256)
  end.

Definition le_val (bs : bytes) : Z :=
  fold_right (fun b acc => Z_of_byte b + 256 * acc) 0 bs.

(** ** Keccak-256 (the hash behind [ethers.keccak256] and Solidity's [keccak256]) *)

Module Keccak.

Definition mask64 : Z := 0xFFFFFFFFFFFFFFFF.

Definition rotl64 (x n : Z) : Z :=
  Z.land (Z.lor (Z.shiftl x n) (Z.shiftr x (64 - n))) mask64.

(** The state is 25 lanes of 64 bits; lane (x, y) sits at index [x + 5 * y]. *)
Definition state := list Z.

Definition lane (A : state) (x y : nat) : Z :=
  nth ((x mod 5) + 5 * (y mod 5))%nat A 0.

Definition build (f : nat -> nat -> Z) : state :=
  map (fun i => f (i mod 5)%nat (i / 5)%nat) (seq 0 25).

Definition round_constants : list Z :=
  [ 0x0000000000000001; 0x0000000000008082; 0x800000000000808A;
    0x8000000080008000; 0x000000000000808B; 0x0000000080000001;
    0x8000000080008081; 0x8000000000008009; 0x000000000000008A;
    0x0000000000000088; 0x0000000080008009; 0x000000008000000A;
    0x000000008000808B; 0x800000000000008B; 0x8000000000008089;
    0x8000000000008003; 0x8000000000008002; 0x8000000000000080;
    0x000000000000800A; 0x800000008000000A; 0x8000000080008081;
    0x8000000000008080; 0x0000000080000001; 0x8000000080008008 ].

Definition rotation_offsets : list Z :=
  [  0;  1; 62; 28; 27;
    36; 44;  6; 55; 20;
     3; 10; 43; 25; 39;
    41; 45; 15; 21;  8;
    18;  2; 61; 56; 14 ].

Definition theta (A : state) : state :=
  let C := map (fun x => Z.lxor (lane A x 0) (Z.lxor (lane A x 1)
                 (Z.lxor (lane A x 2) (Z.lxor (lane A x 3) (lane A x 4)))))
               (seq 0 5) in
  let D := map (fun x => Z.lxor (nth ((x + 4) mod 5)%nat C 0)
                                (rotl64 (nth ((x + 1) mod 5)%nat C 0) 1))
               (seq 0 5) in
  build (fun x y => Z.lxor (lane A x y) (nth x D 0)).

Definition rho_pi (A : state) : state :=
  build (fun x y =>
    let x0 := ((x + 3 * y) mod 5)%nat in
    rotl64 (lane A x0 x) (nth (x0 + 5 * x)%nat rotation_offsets 0)).

Definition chi (B : state) : state :=
  build (fun x y =>
    Z.lxor (lane B x y) (Z.ldiff (lane B (x + 2) y) (lane B (x + 1) y))).

Definition iota (rc : Z) (A : state) : state :=
  match A with
  | a :: rest => Z.lxor a rc :: rest
  | [] => []
  end.

Definition round (A : state) (rc : Z) : state :=
  iota rc (chi (rho_pi (theta A))).

Definition keccak_f (A : state) : state :=
  fold_left round round_constants A.

Definition rate : nat := 136.

(** Multi-rate padding with the original Keccak domain byte [0x01]. *)
Definition pad (msg : bytes) : bytes :=
  let q := (rate - (length msg mod rate))%nat in
  if (q =? 1)%nat then msg ++ [x81]
  else msg ++ [x01] ++ repeat x00 (q - 2) ++ [x80].

Fixpoint lanes_of (n : nat) (blk : bytes) : list Z :=
  match n with
  | O => []
  | S n' => le_val (firstn 8 blk) :: lanes_of n' (skipn 8 blk)
  end.

Definition xor_block (A : state) (blk : bytes) : state :=
  let ls := lanes_of 17 blk in
  map (fun i => Z.lxor (nth i A 0) (nth i ls 0)) (seq 0 25).

Fixpoint absorb (nblocks : nat) (A : state) (data : bytes) : state :=
  match nblocks with
  | O => A
  | S n => absorb n (keccak_f (xor_block A (firstn rate data))) (skipn rate data)
  end.

Definition squeeze (A : state) : bytes :=
  le_bytes 8 (nth 0 A 0) ++ le_bytes 8 (nth 1 A 0) ++
  le_bytes 8 (nth 2 A 0) ++ le_bytes 8 (nth 3 A 0).

Definition keccak256 (msg : bytes) : bytes :=
  let p := pad msg in
  squeeze (absorb (length p / rate) (repeat 0 25) p).

End Keccak.

(** ** Hex strings ([ethers.getBytes], [ethers.hexlify]) *)

Module Hex.

Definition hex_digit (c : ascii) : option Z :=
  let n := Z.of_nat (nat_of_ascii c) in
  if (48 <=? n) && (n <=? 57) then Some (n - 48)
  else if (97 <=? n) && (n <=? 102) then Some (n - 87)
  else if (65 <=? n) && (n <=? 70) then Some (n - 55)
  else None.

Definition hex_char (d : Z) : ascii :=
  ascii_of_nat (Z.to_nat (if d <? 10 then 48 + d else 87 + d)).

(** The digits after the ["0x"] prefix, two per byte. *)
Fixpoint parse_pairs (s : string) : option bytes :=
  match s with
  | EmptyString => Some []
  | String c1 (String c2 rest) =>
      match hex_digit c1, hex_digit c2, parse_pairs rest with
      | Some h, Some l, Some bs => Some (byte_of_Z (16 * h + l) :: bs)
      | _, _, _ => None
      end
  | String _ EmptyString => None
  end.

Fixpoint print_pairs (bs : bytes) : string :=
  match bs with
  | [] => EmptyString
  | b :: rest =>
      String (hex_char (Z_of_byte b / 16))
        (String (hex_char (Z_of_byte b mod 16)) (print_pairs rest))
  end.

End Hex.

(** ** JavaScript values and exceptions *)

(** The values the scripts pass around: [null], [undefined], booleans,
    strings, integers (numbers or bigints), byte arrays ([Uint8Array]) and
    arrays. *)
#[warnings="-register-all"]
Inductive jsval :=
| JNull
| JUndefined
| JBool (b : bool)
| JStr (s : string)
| JNum (n : Z)        (* an integer: a bigint, or a number in the safe range *)
| JBytes (b : bytes)
| JArr (l : list jsval).

(** JavaScript truthiness, as used by [||], [!] and [if]. *)
Definition truthy (v : jsval) : bool :=
  match v with
  | JNull | JUndefined => false
  | JBool b => b
  | JStr s => negb (s =? "")%string
  | JNum n => negb (n =? 0)
  | JBytes _ | JArr _ => true
  end.

Definition js_or (a b : jsval) : jsval := if truthy a then a else b.
Definition js_not (a : jsval) : bool := negb (truthy a).

(** Thrown exceptions.  [InvalidArgument] is the error of ethers' argument
    checks, [TypeError] the one of the JavaScript runtime, and [Timeout]
    is [new Error("timeout")] of the verify loop. *)
Inductive error :=
| InvalidArgument (reason : string)
| TypeError (reason : string)
| Timeout.


Inductive result (A : Type) :=
| Ok (a : A)
| Err (e : error).
Arguments Ok {A} a.
Arguments Err {A} e.

Definition bind {A B} (r : result A) (k : A -> result B) : result B :=
  match r with
  | Ok a => k a
  | Err e => Err e
  end.

Declare Scope result_scope.
Delimit Scope result_scope with result.
Notation "x <- r ;; k" := (bind r (fun x => k))
  (at level 61, r at next level, right associativity) : result_scope.
Local Open Scope result_scope.

(** Left-to-right traversal that stops at the first exception. *)
Fixpoint mapM {A B} (f : A -> result B) (l : list A) : result (list B) :=
  match l with
  | [] => Ok []
  | a :: rest => b <- f a ;; bs <- mapM f rest ;; Ok (b :: bs)
  end.

(** ** The ethers functions the scripts call *)

Module Ethers.

(** The two major versions of the library.  [backend/scripts/demo_verify.js]
    imports whichever is installed as ["ethers"]; the helper script uses
    [hre.ethers], which [hardhat.config.js] sets up with
    [@nomiclabs/hardhat-ethers], that is version 5. *)
Inductive version := v5 | v6.

(** [ethers.ZeroBytes32].  Neither version exports this name (the zero
    word is [ethers.ZeroHash] in version 6 and [ethers.constants.HashZero]
    in version 5), so reading the property gives [undefined]. *)
Definition ZeroBytes32 : jsval := JUndefined.

(** A call [name(arg)] where [name] is a property the library does not
    have: the argument is evaluated, then the call throws. *)
Definition call_undefined {A B} (name : string) (arg : result A) : result B :=
  _ <- arg ;; Err (TypeError (name ++ " is not a function")).

(** [getBytes]: a byte array is returned as it is; a string is accepted
    when it is ["0x"] (in either case) followed by an even number of hex
    digits. *)
Definition getBytes (v : jsval) : result bytes :=
  match v with
  | JBytes bs => Ok bs
  | JStr (String "0" (String c rest)) =>
      if (c =? "x")%char || (c =? "X")%char then
        match Hex.parse_pairs rest with
        | Some bs => Ok bs
        | None => Err (InvalidArgument "invalid BytesLike value")
        end
      else Err (InvalidArgument "invalid BytesLike value")
  | _ => Err (InvalidArgument "invalid BytesLike value")
  end.

Definition hexlify (bs : bytes) : string :=
  String "0" (String "x" (Hex.print_pairs bs)).

Definition keccak256 (data : jsval) : result string :=
  bs <- getBytes data ;; Ok (hexlify (Keccak.keccak256 bs)).

(** [concat] of byte arrays: ["0x"] followed by the digits of each, in order. *)
Definition concat (datas : list bytes) : string :=
  hexlify (List.concat datas).

(** The strings hashed by the scripts are ASCII, whose UTF-8 encoding is
    the characters themselves. *)
Definition toUtf8Bytes (s : string) : bytes :=
  map byte_of_ascii (list_ascii_of_string s).

Definition is_upper_hex (c : ascii) : bool :=
  let n := nat_of_ascii c in (65 <=? n)%nat && (n <=? 70)%nat.
Definition is_lower_hex (c : ascii) : bool :=
  let n := nat_of_ascii c in (97 <=? n)%nat && (n <=? 102)%nat.
Definition to_lower (c : ascii) : ascii :=
  let n := nat_of_ascii c in
  if (65 <=? n)%nat && (n <=? 90)%nat then ascii_of_nat (n + 32) else c.
Definition to_upper (c : ascii) : ascii :=
  let n := nat_of_ascii c in
  if (97 <=? n)%nat && (n <=? 122)%nat then ascii_of_nat (n - 32) else c.

(** Nibble [i] of a byte string, high nibble first. *)
Definition nibble (h : bytes) (i : nat) : Z :=
  let b := Z_of_byte (nth (i / 2) h x00) in
  if Nat.even i then b / 16 else b mod 16.

(** EIP-55: digit [i] is upper-cased when nibble [i] of the hash of the
    lower-case digits is at least 8. *)
Definition getChecksumAddress (digits : list ascii) : list ascii :=
  let chars := map to_lower digits in
  let hashed := Keccak.keccak256 (map byte_of_ascii chars) in
  map (fun '(i, c) => if 8 <=? nibble hashed i then to_upper c else c)
      (combine (seq 0 (length chars)) chars).

(** [getAddress]: forty hex digits with an optional ["0x"]; a mixed-case
    address must carry its EIP-55 checksum.  The result is kept as the
    twenty bytes of the address.  (ICAP addresses are not modelled: they
    are rejected as invalid here.) *)
Definition getAddress (v : jsval) : result bytes :=
  match v with
  | JStr s =>
      let body := match s with
                  | String "0" (String "x" r) => r
                  | _ => s
                  end in
      match (String.length body =? 40)%nat, Hex.parse_pairs body with
      | true, Some a =>
          let cs := list_ascii_of_string body in
          if existsb is_upper_hex cs && existsb is_lower_hex cs
             && negb (string_of_list_ascii (getChecksumAddress cs) =? body)%string
          then Err (InvalidArgument "bad address checksum")
          else Ok a
      | _, _ => Err (InvalidArgument "invalid address")
      end
  | _ => Err (InvalidArgument "invalid address")
  end.

End Ethers.

(** ** The default ABI coder ([AbiCoder.encode]) *)

Module AbiCoder.

Import Ethers.

Inductive abitype :=
| TAddress
| TUint256
| TBytes32
| TBytes
| TArray (elt : abitype).

(** The type names that occur in the scripts. *)
Definition ParamType_from (name : string) : result abitype :=
  if (name =? "address")%string then Ok TAddress
  else if (name =? "uint256")%string then Ok TUint256
  else if (name =? "bytes32")%string then Ok TBytes32
  else if (name =? "bytes")%string then Ok TBytes
  else if (name =? "address[]")%string then Ok (TArray TAddress)
  else if (name =? "uint256[]")%string then Ok (TArray TUint256)
  else Err (InvalidArgument "invalid type").

Definition dynamic (t : abitype) : bool :=
  match t with
  | TBytes | TArray _ => true
  | _ => false
  end.

Definition WordSize : nat := 32.

(** [writer.writeValue]: one 32-byte big-endian word. *)
Definition word (z : Z) : bytes := be_bytes WordSize z.

(** Zero bytes that fill [n] bytes up to a multiple of the word size. *)
Definition padding (n : nat) : bytes :=
  if (n mod WordSize =? 0)%nat then []
  else repeat x00 (WordSize - n mod WordSize).

Definition head_size (items : list (bool * bytes)) : nat :=
  fold_right (fun '((d, e) : bool * bytes) acc =>
                ((if d then WordSize else length e) + acc)%nat)
             O items.

(** Heads and tails of [pack]: a static item is written in place, a
    dynamic item leaves its offset in the head and goes to the tail. *)
Fixpoint pack_parts (items : list (bool * bytes)) (offset : nat)
  : bytes * bytes :=
  match items with
  | [] => ([], [])
  | (true, e) :: rest =>
      let '(h, t) := pack_parts rest (offset + length e)%nat in
      (word (Z.of_nat offset) ++ h, e ++ t)
  | (false, e) :: rest =>
      let '(h, t) := pack_parts rest offset in
      (e ++ h, t)
  end.

Definition pack (items : list (bool * bytes)) : bytes :=
  let '(h, t) := pack_parts items (head_size items) in h ++ t.

(** The value of a [uint256] argument given as an integer.  (ethers also
    takes numeric strings; they are outside the model.) *)
Definition getUint256 (v : jsval) : result Z :=
  match v with
  | JNum n =>
      if (0 <=? n) && (n <? 2 ^ 256) then Ok n
      else Err (InvalidArgument "value out-of-bounds")
  | _ => Err (InvalidArgument "invalid BigNumberish value")
  end.

(** The value of a [bytes32] argument. *)
Definition getBytes32 (v : jsval) : result bytes :=
  b <- getBytes v ;;
  if (length b =? 32)%nat then Ok b
  else Err (InvalidArgument "incorrect data length").

Fixpoint encode_value (t : abitype) (v : jsval) : result bytes :=
  match t with
  | TAddress =>
      a <- getAddress v ;; Ok (repeat x00 12 ++ a)
  | TUint256 =>
      n <- getUint256 v ;; Ok (word n)
  | TBytes32 =>
      getBytes32 v
  | TBytes =>
      b <- getBytes v ;;
      Ok (word (Z.of_nat (length b)) ++ b ++ padding (length b))
  | TArray elt =>
      match v with
      | JArr l =>
          encs <- mapM (encode_value elt) l ;;
          Ok (word (Z.of_nat (length l))
                ++ pack (map (fun e => (dynamic elt, e)) encs))
      | _ => Err (InvalidArgument "expected array value")
      end
  end.

Fixpoint encode_all (ts : list abitype) (vs : list jsval)
  : result (list (bool * bytes)) :=
  match ts, vs with
  | [], [] => Ok []
  | t :: ts', v :: vs' =>
      e <- encode_value t v ;;
      es <- encode_all ts' vs' ;;
      Ok ((dynamic t, e) :: es)
  | _, _ => Err (InvalidArgument "types/values length mismatch")
  end.

(** [abiCoder.encode(types, values)]: the hex string of the packed tuple. *)
Definition encode (types : list string) (values : list jsval) : result string :=
  ts <- mapM ParamType_from types ;;
  if (length ts =? length values)%nat then
    es <- encode_all ts values ;; Ok (hexlify (pack es))
  else Err (InvalidArgument "types/values length mismatch").

(** An instance of the coder; it has no state. *)
Inductive Coder := DefaultCoder.

Definition Coder_encode (abiCoder : Coder) : list string -> list jsval -> result string :=
  encode.

(** [new ethers.AbiCoder.defaultAbiCoder()].  In version 6
    [defaultAbiCoder] is a static method of the class [AbiCoder], and a
    method is not a constructor; in version 5 [ethers.AbiCoder] is
    [undefined] (the class lives under [ethers.utils]).  Either way the
    expression throws. *)
Definition new_defaultAbiCoder_error (lib : version) : string :=
  match lib with
  | v6 => "ethers.AbiCoder.defaultAbiCoder is not a constructor"
  | v5 => "Cannot read properties of undefined (reading 'defaultAbiCoder')"
  end.

Definition new_defaultAbiCoder (lib : version) : result Coder :=
  Err (TypeError (new_defaultAbiCoder_error lib)).

End AbiCoder.

(** ** backend/scripts/demo_verify.js *)

(** The script imports [ethers] from the package ["ethers"]; [lib] is the
    version installed.  Both functions start with
    [new ethers.AbiCoder.defaultAbiCoder()], which throws in either
    version, so no run reaches the statements after it; they are written
    out with the meaning their names have in version 6. *)
Module DemoVerify.

Import Ethers.

Record OpIdResult := { opId : string; salt : jsval }.

Definition computeOpIdSingle (lib : version)
  (target value dataHex predecessorHex saltHex : jsval) : result OpIdResult :=
  abiCoder <- AbiCoder.new_defaultAbiCoder lib ;;
  innerHash <- keccak256 dataHex ;;
  let predecessor := js_or predecessorHex ZeroBytes32 in
  salt <- (if js_not saltHex then
             packed <- AbiCoder.Coder_encode abiCoder
                         ["bytes"; "address"; "uint256"; "bytes32"]%string
                         [dataHex; target; value; predecessor] ;;
             s <- keccak256 (JStr packed) ;;
             Ok (JStr s)
           else Ok saltHex) ;;
  encoded <- AbiCoder.Coder_encode abiCoder
               ["address"; "uint256"; "bytes32"; "bytes32"; "bytes32"]%string
               [target; value; JStr innerHash; predecessor; salt] ;;
  opId <- keccak256 (JStr encoded) ;;
  Ok {| opId := opId; salt := salt |}.

Definition computeOpIdBatch (lib : version)
  (targets values datasHex predecessorHex saltHex : jsval) : result OpIdResult :=
  abiCoder <- AbiCoder.new_defaultAbiCoder lib ;;
  let predecessor := js_or predecessorHex ZeroBytes32 in
  bytesArr <- match datasHex with
              | JArr ds => mapM getBytes ds
              | _ => Err (TypeError "datasHex.map is not a function")
              end ;;
  let concat := concat bytesArr in
  packedHash <- keccak256 (JStr concat) ;;
  salt <- (if js_not saltHex then
             encoded <- AbiCoder.Coder_encode abiCoder
                          ["address[]"; "uint256[]"; "bytes32"; "bytes32"]%string
                          [targets; values; JStr packedHash; predecessor] ;;
             s <- keccak256 (JStr encoded) ;;
             Ok (JStr s)
           else Ok saltHex) ;;
  encodedTop <- AbiCoder.Coder_encode abiCoder
                  ["address[]"; "uint256[]"; "bytes32"; "bytes32"; "bytes32"]%string
                  [targets; values; JStr packedHash; predecessor; salt] ;;
  opId <- keccak256 (JStr encodedTop) ;;
  Ok {| opId := opId; salt := salt |}.

End DemoVerify.

(** ** contracts/ArcadiaTimelock.sol *)

Module ArcadiaTimelock.

Import Ethers.

(** [ArcadiaTimelock] declares a constructor only, so its [hashOperation]
    is the one it inherits from OpenZeppelin's [TimelockController]:
    [keccak256(abi.encode(target, value, data, predecessor, salt))] with
    [data] of type [bytes], as in the helper's [TIMELOCK_ABI]. *)
Definition hashOperation (target : bytes) (value : Z) (data : bytes)
                         (predecessor salt : bytes) : bytes :=
  Keccak.keccak256
    (AbiCoder.pack
       [ (false, repeat x00 12 ++ target);
         (false, AbiCoder.word value);
         (true, AbiCoder.word (Z.of_nat (length data)) ++ data
                  ++ AbiCoder.padding (length data));
         (false, predecessor);
         (false, salt) ]).

(** [timelock.hashOperation(target, value, data, predecessor, salt)] as the
    helper script calls it through [TIMELOCK_ABI]: the arguments are coded
    by their declared types and the returned [bytes32] comes back as a hex
    string. *)
Definition call_hashOperation (target value data predecessor salt : jsval)
  : result string :=
  a <- getAddress target ;;
  v <- AbiCoder.getUint256 value ;;
  d <- getBytes data ;;
  p <- AbiCoder.getBytes32 predecessor ;;
  s <- AbiCoder.getBytes32 salt ;;
  Ok (hexlify (hashOperation a v d p s)).

End ArcadiaTimelock.

(** ** scripts/timelockHelper.js *)

Module TimelockHelper.

Import Ethers.

(** What [parseArgs] stores under an option name: nothing, [true] for a
    flag without a value, or the string that follows the flag. *)
Inductive optval :=
| Absent
| Flag
| Value (s : string).

Definition opt_truthy (o : optval) : bool :=
  match o with
  | Absent => false
  | Flag => true
  | Value s => negb (s =? "")%string
  end.

(** The environment a run reads from: the clock and the random source.
    [Math_random] is the decimal text of the number drawn. *)
Record Env := { Date_now : Z; Math_random : string }.

(** [String(n)] for an integer [n]. *)
Definition String_of_int (n : Z) : string :=
  NilZero.string_of_int (Z.to_int n).

(** [/^-?/]: the text after an optional minus sign. *)
Definition unsigned (s : string) : string :=
  match s with
  | String "-" r => r
  | _ => s
  end.

Definition is_decimal_digit (c : ascii) : bool :=
  let n := nat_of_ascii c in (48 <=? n)%nat && (n <=? 57)%nat.

Definition is_hex_digit (c : ascii) : bool :=
  match Hex.hex_digit c with
  | Some _ => true
  | None => false
  end.

(** [/^-?0x[0-9a-f]+$/i] and [/^-?[0-9]+$/]. *)
Definition matches_hex (s : string) : bool :=
  match unsigned s with
  | String "0" (String x (String c r)) =>
      ((x =? "x")%char || (x =? "X")%char)
      && forallb is_hex_digit (list_ascii_of_string (String c r))
  | _ => false
  end.

Definition matches_decimal (s : string) : bool :=
  match unsigned s with
  | String c r => forallb is_decimal_digit (list_ascii_of_string (String c r))
  | EmptyString => false
  end.

(** A [BigNumber] of version 5.  The script only hands it to
    [ethers.hexlify], so the model keeps the text it was made from. *)
Record BigNumber := { BigNumber_text : string }.

(** [BigNumber.from(s)] for a string [s]: a string matching one of the two
    patterns gives a number, any other string is an invalid argument. *)
Definition BigNumber_from (s : string) : result BigNumber :=
  if matches_hex s || matches_decimal s then Ok {| BigNumber_text := s |}
  else Err (InvalidArgument "invalid BigNumber string").

(** [ethers] is [hre.ethers], version 5, where [hexlify], [keccak256] and
    [toUtf8Bytes] are properties of [ethers.utils] and not of [ethers]:
    only a salt given with ["0x"] comes back.  A call evaluates its
    arguments before it finds that the callee is no function, so
    [BigNumber.from] runs, and the clock and the random source are read. *)
Definition mkSalt (env : Env) (provided : optval) : result string :=
  if opt_truthy provided then
    match provided with
    | Value s =>
        if String.prefix "0x" s then Ok s
        else call_undefined "ethers.hexlify" (BigNumber_from s)
    | _ => Err (TypeError "provided.startsWith is not a function")
    end
  else
    call_undefined "ethers.keccak256"
      (call_undefined (B := bytes) "ethers.toUtf8Bytes"
         (Ok (String_of_int (Date_now env) ++ Math_random env)%string)).

(** *** Numbers of the verify loop *)

(** The result of [parseInt]: an integer or [NaN]. *)
Inductive jsnum :=
| Num (z : Z)
| NaN.

Definition is_space (c : ascii) : bool :=
  let n := nat_of_ascii c in
  (n =? 32)%nat || ((9 <=? n)%nat && (n <=? 13)%nat).

Fixpoint skip_spaces (s : string) : string :=
  match s with
  | String c rest => if is_space c then skip_spaces rest else s
  | EmptyString => s
  end.

Definition digit_value (radix : Z) (c : ascii) : option Z :=
  match Hex.hex_digit c with
  | Some d => if d <? radix then Some d else None
  | None => None
  end.

(** The longest prefix of digits; [None] when there is no digit at all. *)
Fixpoint leading_digits (radix : Z) (s : string) (acc : option Z) : option Z :=
  match s with
  | EmptyString => acc
  | String c rest =>
      match digit_value radix c with
      | Some d =>
          leading_digits radix rest
            (Some (radix * match acc with Some a => a | None => 0 end + d))
      | None => acc
      end
  end.

(** [parseInt(s)] without a radix: blanks, a sign, an optional ["0x"], then
    as many digits as there are. *)
Definition parseInt_string (s : string) : jsnum :=
  let s := skip_spaces s in
  let '(neg, s) := match s with
                   | String "-" r => (true, r)
                   | String "+" r => (false, r)
                   | _ => (false, s)
                   end in
  let '(radix, s) := match s with
                     | String "0" (String "x" r) => (16, r)
                     | String "0" (String "X" r) => (16, r)
                     | _ => (10, s)
                     end in
  match leading_digits radix s None with
  | Some n => Num (if neg then - n else n)
  | None => NaN
  end.

Definition parseInt (o : optval) : jsnum :=
  match o with
  | Value s => parseInt_string s
  | Flag => parseInt_string "true"
  | Absent => parseInt_string "undefined"
  end.

(** [n * 1000]. *)
Definition times1000 (n : jsnum) : jsnum :=
  match n with
  | Num z => Num (z * 1000)
  | NaN => NaN
  end.

(** [(now - start) / 1000 > timeout], with [now] and [start] in
    milliseconds; a comparison with [NaN] is false. *)
Definition elapsed_exceeds (now start : Z) (timeout : jsnum) : bool :=
  match timeout with
  | Num t => 1000 * t <? now - start
  | NaN => false
  end.

(** *** cmdVerify *)

(** What a run of the loop observes: the answers of the three view
    functions to the [n]-th query about an identifier, and the value of the
    [n]-th call of [Date.now()].  Every query is taken to be answered (a
    rejected call would end [cmdVerify] with that exception). *)
Record World := {
  isOperationReady : string -> nat -> bool;
  isOperationDone : string -> nat -> bool;
  isOperationPending : string -> nat -> bool;
  clock : nat -> Z
}.

Inductive event :=
| EvClock (t : Z)
| EvReady (b : bool)
| EvDone (b : bool)
| EvPending (b : bool)
| EvTimeoutCheck (exceeded : bool)
| EvSleep (ms : jsnum).

(** How many calls of each kind were made, and everything that happened,
    oldest first. *)
Record state := {
  n_ready : nat;
  n_done : nat;
  n_pending : nat;
  n_clock : nat;
  trace : list event
}.

Definition initial : state :=
  {| n_ready := 0; n_done := 0; n_pending := 0; n_clock := 0; trace := [] |}.

Definition M (A : Type) : Type := state -> A * state.

Definition ret {A} (a : A) : M A := fun s => (a, s).

Definition bindM {A B} (m : M A) (k : A -> M B) : M B :=
  fun s => let '(a, s') := m s in k a s'.

Declare Scope verify_scope.
Delimit Scope verify_scope with verify.
Notation "x <~ m ;; k" := (bindM m (fun x => k))
  (at level 61, m at next level, right associativity) : verify_scope.

Definition log (e : event) (s : state) : list event := trace s ++ [e].

Definition query_ready (w : World) (id : string) : M bool := fun s =>
  let b := isOperationReady w id (n_ready s) in
  (b, {| n_ready := S (n_ready s); n_done := n_done s;
         n_pending := n_pending s; n_clock := n_clock s;
         trace := log (EvReady b) s |}).

Definition query_done (w : World) (id : string) : M bool := fun s =>
  let b := isOperationDone w id (n_done s) in
  (b, {| n_ready := n_ready s; n_done := S (n_done s);
         n_pending := n_pending s; n_clock := n_clock s;
         trace := log (EvDone b) s |}).

Definition query_pending (w : World) (id : string) : M bool := fun s =>
  let b := isOperationPending w id (n_pending s) in
  (b, {| n_ready := n_ready s; n_done := n_done s;
         n_pending := S (n_pending s); n_clock := n_clock s;
         trace := log (EvPending b) s |}).

Definition date_now (w : World) : M Z := fun s =>
  let t := clock w (n_clock s) in
  (t, {| n_ready := n_ready s; n_done := n_done s;
         n_pending := n_pending s; n_clock := S (n_clock s);
         trace := log (EvClock t) s |}).

Definition emit (e : event) : M unit := fun s =>
  (tt, {| n_ready := n_ready s; n_done := n_done s;
          n_pending := n_pending s; n_clock := n_clock s;
          trace := log e s |}).

Record VerifyResult := {
  opId : string;
  ready : bool;
  done : bool;
  pending : bool
}.

(** How a run ends: with a returned object, with a thrown exception, or,
    when the iterations allowed to the model are used up, still polling. *)
Inductive outcome :=
| Returned (r : VerifyResult)
| Threw (e : error)
| StillPolling.

Local Open Scope verify_scope.

(** The [while (true)] loop; [fuel] bounds the iterations unfolded. *)
Fixpoint poll (w : World) (opId : string) (interval timeout : jsnum)
              (start : Z) (fuel : nat) : M outcome :=
  match fuel with
  | O => ret StillPolling
  | S fuel' =>
      ready <~ query_ready w opId ;;
      done <~ query_done w opId ;;
      pending <~ query_pending w opId ;;
      if ready then
        ret (Returned {| opId := opId; ready := true;
                         done := done; pending := pending |})
      else if done then
        ret (Returned {| opId := opId; ready := false;
                         done := true; pending := false |})
      else
        now <~ date_now w ;;
        let exceeded := elapsed_exceeds now start timeout in
        _ <~ emit (EvTimeoutCheck exceeded) ;;
        if exceeded then ret (Threw Timeout)
        else
          _ <~ emit (EvSleep (times1000 interval)) ;;
          poll w opId interval timeout start fuel'
  end.

(** [cmdVerify] once [opId] is known (given as [--opId]): the options
    [--interval] and [--timeout] with their defaults, the start time, then
    the loop.  The spinner and console output are left out. *)
Definition interval_of (opts_interval : optval) : jsnum :=
  if opt_truthy opts_interval then parseInt opts_interval else Num 5.

Definition timeout_of (opts_timeout : optval) : jsnum :=
  if opt_truthy opts_timeout then parseInt opts_timeout else Num 600.

Definition cmdVerify (w : World) (opId : string)
                     (opts_interval opts_timeout : optval) (fuel : nat)
  : M outcome :=
  let interval := interval_of opts_interval in
  let timeout := timeout_of opts_timeout in
  start <~ date_now w ;;
  poll w opId interval timeout start fuel.

(** *** Vocabulary for runs of the loop *)

(** The state when iteration [k] begins (iterations count from 0). *)
Definition at_poll (k : nat) (tr : list event) : state :=
  {| n_ready := k; n_done := k; n_pending := k; n_clock := S k; trace := tr |}.

(** The three queries of iteration [k]. *)
Definition reads (w : World) (id : string) (k : nat) : list event :=
  [ EvReady (isOperationReady w id k); EvDone (isOperationDone w id k);
    EvPending (isOperationPending w id k) ].

(** The timeout test of iteration [k]. *)
Definition check (w : World) (start : Z) (timeout : jsnum) (k : nat)
  : list event :=
  [ EvClock (clock w (S k));
    EvTimeoutCheck (elapsed_exceeds (clock w (S k)) start timeout) ].

(** Neither ready nor done nor timed out in the iterations [k .. k+n-1]. *)
Definition quiet (w : World) (id : string) (start : Z) (timeout : jsnum)
                 (k n : nat) : Prop :=
  forall j, (k <= j < k + n)%nat ->
    isOperationReady w id j = false /\ isOperationDone w id j = false /\
    elapsed_exceeds (clock w (S j)) start timeout = false.

End TimelockHelper.

(** ** The identifier and the salt in the words of the specification *)

(** What the specification says the operation identifier and the derived
    salt are, written with the ABI coder and the hash above; the
    predecessor and the salt are given as 32-byte values. *)
Module Spec.

Import Ethers.

Definition opId_single (target value data predecessor salt : jsval) : result string :=
  innerHash <- keccak256 data ;;
  encoded <- AbiCoder.encode
               ["address"; "uint256"; "bytes32"; "bytes32"; "bytes32"]%string
               [target; value; JStr innerHash; predecessor; salt] ;;
  keccak256 (JStr encoded).

Definition innerHash_batch (datas : list jsval) : result string :=
  bytesArr <- mapM getBytes datas ;;
  keccak256 (JStr (concat bytesArr)).

Definition opId_batch (targets values datas : list jsval) (predecessor salt : jsval)
  : result string :=
  innerHash <- innerHash_batch datas ;;
  encoded <- AbiCoder.encode
               ["address[]"; "uint256[]"; "bytes32"; "bytes32"; "bytes32"]%string
               [JArr targets; JArr values; JStr innerHash; predecessor; salt] ;;
  keccak256 (JStr encoded).

Definition salt_single (target value data predecessor : jsval) : result string :=
  encoded <- AbiCoder.encode ["bytes"; "address"; "uint256"; "bytes32"]%string
               [data; target; value; predecessor] ;;
  keccak256 (JStr encoded).

Definition salt_batch (targets values datas : list jsval) (predecessor : jsval)
  : result string :=
  innerHash <- innerHash_batch datas ;;
  encoded <- AbiCoder.encode ["address[]"; "uint256[]"; "bytes32"; "bytes32"]%string
               [JArr targets; JArr values; JStr innerHash; predecessor] ;;
  keccak256 (JStr encoded).

End Spec.

(** ** Sample inputs *)

Module Samples.

Definition target : jsval := JStr "0xaaaaaaaaaaaaaaaaaaaaaaaaaaaaaaaaaaaa1111".
Definition target_bytes : bytes := repeat xaa 18 ++ [x11; x11].

Definition other : jsval := JStr "0xbbbbbbbbbbbbbbbbbbbbbbbbbbbbbbbbbbbb2222".
Definition other_bytes : bytes := repeat xbb 18 ++ [x22; x22].

Definition data : jsval := JStr "0x1234abcd".
Definition data_bytes : bytes := [x12; x34; xab; xcd].

Definition salt : jsval :=
  JStr "0xdeadbeefdeadbeefdeadbeefdeadbeefdeadbeefdeadbeefdeadbeefdeadbeef".
Definition salt_bytes : bytes := List.concat (repeat [xde; xad; xbe; xef] 8).

Definition zero32 : bytes := repeat x00 32.
Definition zero_word : jsval :=
  JStr "0x0000000000000000000000000000000000000000000000000000000000000000".

(** A timelock that reports the operation done from the third poll on,
    seen with a clock that advances three seconds between readings. *)
Definition done_at_third_poll : TimelockHelper.World :=
  {| TimelockHelper.isOperationReady := fun _ _ => false;
     TimelockHelper.isOperationDone := fun _ n => (2 <=? n)%nat;
     TimelockHelper.isOperationPending := fun _ n => (n <? 2)%nat;
     TimelockHelper.clock := fun n => 1700000000000 + 3000 * Z.of_nat n |}.

(** A timelock on which the operation is already done. *)
Definition done_at_once : TimelockHelper.World :=
  {| TimelockHelper.isOperationReady := fun _ _ => false;
     TimelockHelper.isOperationDone := fun _ _ => true;
     TimelockHelper.isOperationPending := fun _ _ => false;
     TimelockHelper.clock := fun n => 1700000000000 + 3000 * Z.of_nat n |}.

(** A timelock on which the operation stays pending for ever. *)
Definition never_ready : TimelockHelper.World :=
  {| TimelockHelper.isOperationReady := fun _ _ => false;
     TimelockHelper.isOperationDone := fun _ _ => false;
     TimelockHelper.isOperationPending := fun _ _ => true;
     TimelockHelper.clock := fun n => 1700000000000 + 3000 * Z.of_nat n |}.

End Samples.

(** ** contracts/ArcadiaPay.sol *)

Module ArcadiaPay.

Definition address : Type := Z.

Definition MAX_UINT256 : Z := 2 ^ 256 - 1.

(** How a call ends: it returns, it reverts with a reason ([require]), or
    it panics (checked arithmetic). *)
Inductive tx (A : Type) :=
| Success (a : A)
| Revert (reason : string)
| Panic (code : Z).
Arguments Success {A} a.
Arguments Revert {A} reason.
Arguments Panic {A} code.

Definition tx_bind {A B} (r : tx A) (k : A -> tx B) : tx B :=
  match r with
  | Success a => k a
  | Revert reason => Revert reason
  | Panic code => Panic code
  end.

Declare Scope tx_scope.
Delimit Scope tx_scope with tx.
Notation "x <- r ;; k" := (tx_bind r (fun x => k))
  (at level 61, r at next level, right associativity) : tx_scope.
Notation "r ;;; k" := (tx_bind r (fun _ => k))
  (at level 61, right associativity) : tx_scope.
Local Open Scope tx_scope.

Definition require (cond : bool) (reason : string) : tx unit :=
  if cond then Success tt else Revert reason.

(** Decoding of an unsigned argument of [bits] bits: a call whose
    argument does not fit reverts without a reason. *)
Definition abi_uint (bits x : Z) : tx unit :=
  if (0 <=? x) && (x <? 2 ^ bits) then Success tt else Revert EmptyString.

Definition abi_address (a : Z) : tx unit := abi_uint 160 a.

(** Checked [uint256] multiplication. *)
Definition checked_mul (a b : Z) : tx Z :=
  if a * b <=? MAX_UINT256 then Success (a * b) else Panic 17.

(** Checked [uint256] subtraction. *)
Definition checked_sub (a b : Z) : tx Z :=
  if b <=? a then Success (a - b) else Panic 17.

(** Checked [uint256] increment. *)
Definition checked_succ (a : Z) : tx Z :=
  if a + 1 <=? MAX_UINT256 then Success (a + 1) else Panic 17.

Record Invoice := {
  issuer : address;
  payer : address;
  token : address;
  amount : Z;
  netAmount : Z;
  metadataURI : string;
  paid : bool;
  released : bool;
  createdAt : Z
}.

(** The value of a mapping slot that was never written. *)
Definition no_invoice : Invoice :=
  {| issuer := 0; payer := 0; token := 0; amount := 0; netAmount := 0;
     metadataURI := EmptyString; paid := false; released := false; createdAt := 0 |}.

Record State := {
  nextInvoiceId : Z;
  invoices : Z -> Invoice;
  feeBps : Z;
  feeVault : address;
  owner : address
}.

Inductive Event :=
| InvoiceCreated (id : Z) (issuer payer : address) (amount : Z)
                 (token : address) (metadataURI : string)
| InvoicePaid (id : Z) (payer : address) (amount fee : Z)
| InvoiceReleased (id : Z) (to : address) (amount : Z)
| InvoiceRefunded (id : Z) (to : address) (amount : Z)
| FeeBpsUpdated (newFeeBps : Z)
| FeeVaultUpdated (newVault : address)
| OwnershipTransferred (previousOwner newOwner : address).

(** *** The tokens *)

(** The tokens are contracts of their own.  They are taken to be ERC20
    tokens that behave as OpenZeppelin's [ERC20] (no fee on transfer, no
    hook that calls back, so [nonReentrant] never fires and [SafeERC20]
    passes the reverts on): [balanceOf t a] is the balance of [a] in token
    [t], [allowance t a s] what [s] may spend of the tokens of [a]. *)
Record Ledger := {
  balanceOf : address -> address -> Z;
  allowance : address -> address -> address -> Z
}.

Definition set_balance (l : Ledger) (t a : address) (v : Z) : Ledger :=
  {| balanceOf := fun t' a' =>
       if (t' =? t) && (a' =? a) then v else balanceOf l t' a';
     allowance := allowance l |}.

Definition set_allowance (l : Ledger) (t a s : address) (v : Z) : Ledger :=
  {| balanceOf := balanceOf l;
     allowance := fun t' a' s' =>
       if (t' =? t) && (a' =? a) && (s' =? s) then v else allowance l t' a' s' |}.

(** [token.transfer(to, amount)] called by [from]. *)
Definition transfer (l : Ledger) (t from to : address) (amt : Z) : tx Ledger :=
  require (negb (from =? 0)) "ERC20: transfer from the zero address" ;;;
  require (negb (to =? 0)) "ERC20: transfer to the zero address" ;;;
  require (amt <=? balanceOf l t from) "ERC20: transfer amount exceeds balance" ;;;
  let l1 := set_balance l t from (balanceOf l t from - amt) in
  Success (set_balance l1 t to (balanceOf l1 t to + amt)).

(** [token.transferFrom(from, to, amount)] called by [spender]. *)
Definition transferFrom (l : Ledger) (t spender from to : address) (amt : Z)
  : tx Ledger :=
  l1 <- (if allowance l t from spender =? MAX_UINT256 then Success l
         else
           require (amt <=? allowance l t from spender)
                   "ERC20: insufficient allowance" ;;;
           require (negb (from =? 0)) "ERC20: approve from the zero address" ;;;
           require (negb (spender =? 0)) "ERC20: approve to the zero address" ;;;
           Success (set_allowance l t from spender
                      (allowance l t from spender - amt))) ;;
  transfer l1 t from to amt.

(** The reasons with which the token reverts. *)
Definition erc20_reasons : list string :=
  ["ERC20: insufficient allowance"%string;
   "ERC20: approve from the zero address"%string;
   "ERC20: approve to the zero address"%string;
   "ERC20: transfer from the zero address"%string;
   "ERC20: transfer to the zero address"%string;
   "ERC20: transfer amount exceeds balance"%string].

(** What a transfer of [amt] of token [t] from [from] to [to] adds to the
    balance of [a] in token [t']. *)
Definition moved (t from to : address) (amt : Z) (t' a : address) : Z :=
  (if (t' =? t) && (a =? to) then amt else 0)
  - (if (t' =? t) && (a =? from) then amt else 0).

(** *** The contract *)

(** The contract state together with the token ledger. *)
Record World := { pay : State; erc20 : Ledger }.

(** Who calls, when, and the address of the contract itself. *)
Record Msg := { this : address; sender : address; timestamp : Z }.

Definition set_invoice (s : State) (id : Z) (inv : Invoice) : State :=
  {| nextInvoiceId := nextInvoiceId s;
     invoices := fun i => if i =? id then inv else invoices s i;
     feeBps := feeBps s;
     feeVault := feeVault s;
     owner := owner s |}.

(** The constructor; [Ownable] makes the deployer the owner. *)
Definition constructor (m : Msg) (_feeVault : address) (_feeBps : Z) : tx State :=
  abi_address _feeVault ;;;
  abi_uint 16 _feeBps ;;;
  require (negb (_feeVault =? 0)) "feeVault=0" ;;;
  require (_feeBps <=? 2000) "feeBps>20%" ;;;
  Success {| nextInvoiceId := 1;
             invoices := fun _ => no_invoice;
             feeBps := _feeBps;
             feeVault := _feeVault;
             owner := sender m |}.

Definition onlyOwner (m : Msg) (s : State) : tx unit :=
  require (owner s =? sender m) "Ownable: caller is not the owner".

Definition validInvoice (s : State) (id : Z) : tx unit :=
  require ((0 <? id) && (id <? nextInvoiceId s)) "invalid invoice id".

Definition setFeeBps (m : Msg) (_feeBps : Z) (s : State)
  : tx (State * list Event) :=
  abi_uint 16 _feeBps ;;;
  onlyOwner m s ;;;
  require (_feeBps <=? 2000) "fee too high" ;;;
  Success ({| nextInvoiceId := nextInvoiceId s; invoices := invoices s;
              feeBps := _feeBps; feeVault := feeVault s; owner := owner s |},
           [FeeBpsUpdated _feeBps]).

Definition setFeeVault (m : Msg) (_feeVault : address) (s : State)
  : tx (State * list Event) :=
  abi_address _feeVault ;;;
  onlyOwner m s ;;;
  require (negb (_feeVault =? 0)) "zero addr" ;;;
  Success ({| nextInvoiceId := nextInvoiceId s; invoices := invoices s;
              feeBps := feeBps s; feeVault := _feeVault; owner := owner s |},
           [FeeVaultUpdated _feeVault]).

Definition createInvoice (m : Msg) (payer_ token_ : address) (amount_ : Z)
                         (metadataURI_ : string) (s : State)
  : tx (Z * State * list Event) :=
  abi_address payer_ ;;;
  abi_address token_ ;;;
  abi_uint 256 amount_ ;;;
  require (0 <? amount_) "amount>0" ;;;
  require (negb (payer_ =? 0)) "payer=0" ;;;
  require (negb (token_ =? 0)) "token=0" ;;;
  let id := nextInvoiceId s in
  next <- checked_succ (nextInvoiceId s) ;;
  let inv := {| issuer := sender m; payer := payer_; token := token_;
                amount := amount_; netAmount := 0;
                metadataURI := metadataURI_; paid := false;
                released := false; createdAt := timestamp m |} in
  Success (id,
           {| nextInvoiceId := next;
              invoices := fun i => if i =? id then inv else invoices s i;
              feeBps := feeBps s; feeVault := feeVault s; owner := owner s |},
           [InvoiceCreated id (sender m) payer_ amount_ token_ metadataURI_]).

Definition payInvoice (m : Msg) (id : Z) (w : World)
  : tx (World * list Event) :=
  let s := pay w in
  abi_uint 256 id ;;;
  validInvoice s id ;;;
  let inv := invoices s id in
  require (negb (paid inv)) "already paid" ;;;
  require (sender m =? payer inv) "only payer" ;;;
  require (0 <? amount inv) "invalid amount" ;;;
  let gross := amount inv in
  l1 <- transferFrom (erc20 w) (token inv) (this m) (sender m) (this m) gross ;;
  product <- checked_mul gross (feeBps s) ;;
  let fee := product / 10000 in
  net <- checked_sub gross fee ;;
  l2 <- (if 0 <? fee then
           require (negb (feeVault s =? 0)) "no fee vault" ;;;
           transfer l1 (token inv) (this m) (feeVault s) fee
         else Success l1) ;;
  let inv' := {| issuer := issuer inv; payer := payer inv; token := token inv;
                 amount := amount inv; netAmount := net;
                 metadataURI := metadataURI inv; paid := true;
                 released := released inv; createdAt := createdAt inv |} in
  Success ({| pay := set_invoice s id inv'; erc20 := l2 |},
           [InvoicePaid id (sender m) gross fee]).

Definition releaseFunds (m : Msg) (id : Z) (to : address) (w : World)
  : tx (World * list Event) :=
  let s := pay w in
  abi_uint 256 id ;;;
  abi_address to ;;;
  validInvoice s id ;;;
  let inv := invoices s id in
  require (paid inv) "not paid" ;;;
  require (negb (released inv)) "already released" ;;;
  require (sender m =? issuer inv) "only issuer" ;;;
  require (0 <? netAmount inv) "no funds" ;;;
  let amount_ := netAmount inv in
  let inv' := {| issuer := issuer inv; payer := payer inv; token := token inv;
                 amount := amount inv; netAmount := 0;
                 metadataURI := metadataURI inv; paid := paid inv;
                 released := true; createdAt := createdAt inv |} in
  l <- transfer (erc20 w) (token inv) (this m) to amount_ ;;
  Success ({| pay := set_invoice s id inv'; erc20 := l |},
           [InvoiceReleased id to amount_]).

Definition refund (m : Msg) (id : Z) (to : address) (w : World)
  : tx (World * list Event) :=
  let s := pay w in
  abi_uint 256 id ;;;
  abi_address to ;;;
  validInvoice s id ;;;
  let inv := invoices s id in
  require (paid inv) "not paid" ;;;
  require (negb (released inv)) "already released" ;;;
  require ((sender m =? issuer inv) || (sender m =? owner s))
          "only issuer/owner" ;;;
  require (0 <? netAmount inv) "no funds" ;;;
  let amount_ := netAmount inv in
  let inv' := {| issuer := issuer inv; payer := payer inv; token := token inv;
                 amount := amount inv; netAmount := 0;
                 metadataURI := metadataURI inv; paid := paid inv;
                 released := true; createdAt := createdAt inv |} in
  l <- transfer (erc20 w) (token inv) (this m) to amount_ ;;
  Success ({| pay := set_invoice s id inv'; erc20 := l |},
           [InvoiceRefunded id to amount_]).

Definition getInvoice (id : Z) (s : State) : tx Invoice :=
  abi_uint 256 id ;;;
  validInvoice s id ;;;
  Success (invoices s id).

(** Inherited from [Ownable]. *)
Definition transferOwnership (m : Msg) (newOwner : address) (s : State)
  : tx (State * list Event) :=
  abi_address newOwner ;;;
  onlyOwner m s ;;;
  require (negb (newOwner =? 0)) "Ownable: new owner is the zero address" ;;;
  Success ({| nextInvoiceId := nextInvoiceId s; invoices := invoices s;
              feeBps := feeBps s; feeVault := feeVault s; owner := newOwner |},
           [OwnershipTransferred (owner s) newOwner]).

Definition renounceOwnership (m : Msg) (s : State) : tx (State * list Event) :=
  onlyOwner m s ;;;
  Success ({| nextInvoiceId := nextInvoiceId s; invoices := invoices s;
              feeBps := feeBps s; feeVault := feeVault s; owner := 0 |},
           [OwnershipTransferred (owner s) 0]).

(** *** Transactions *)

(** The state-changing entry points of the contract. *)
Inductive Call :=
| CallSetFeeBps (_feeBps : Z)
| CallSetFeeVault (_feeVault : address)
| CallCreateInvoice (payer token : address) (amount : Z) (metadataURI : string)
| CallPayInvoice (id : Z)
| CallReleaseFunds (id : Z) (to : address)
| CallRefund (id : Z) (to : address)
| CallTransferOwnership (newOwner : address)
| CallRenounceOwnership.

Definition on_state (r : tx (State * list Event)) (w : World)
  : tx (World * list Event) :=
  r <- r ;; Success ({| pay := fst r; erc20 := erc20 w |}, snd r).

(** One transaction sent to the contract. *)
Definition exec (m : Msg) (c : Call) (w : World) : tx (World * list Event) :=
  match c with
  | CallSetFeeBps b => on_state (setFeeBps m b (pay w)) w
  | CallSetFeeVault v => on_state (setFeeVault m v (pay w)) w
  | CallCreateInvoice p t a u =>
      r <- createInvoice m p t a u (pay w) ;;
      Success ({| pay := snd (fst r); erc20 := erc20 w |}, snd r)
  | CallPayInvoice id => payInvoice m id w
  | CallReleaseFunds id to => releaseFunds m id to w
  | CallRefund id to => refund m id to w
  | CallTransferOwnership o => on_state (transferOwnership m o (pay w)) w
  | CallRenounceOwnership => on_state (renounceOwnership m (pay w)) w
  end.

(** What the invoices hold in escrow of token [t]: the net amounts of the
    invoices [1 .. n] in that token. *)
Definition held (i : Invoice) (t : address) : Z :=
  if token i =? t then netAmount i else 0.

Fixpoint escrowed_upto (inv : Z -> Invoice) (t : address) (n : nat) : Z :=
  match n with
  | O => 0
  | S n' => held (inv (Z.of_nat n)) t + escrowed_upto inv t n'
  end.

Definition escrowed (s : State) (t : address) : Z :=
  escrowed_upto (invoices s) t (Z.to_nat (nextInvoiceId s - 1)).

(** A step of the world around the contract at address [self]: a
    transaction that succeeds, sent by another account, or a change of the
    ledger made elsewhere, which cannot take tokens from the contract
    (it never approves a spender). *)
Inductive step (self : address) : World -> World -> Prop :=
| step_exec (m : Msg) (c : Call) (w w' : World) (evs : list Event) :
    this m = self -> sender m <> self ->
    exec m c w = Success (w', evs) ->
    step self w w'
| step_ledger (w : World) (l : Ledger) :
    (forall t, balanceOf (erc20 w) t self <= balanceOf l t self) ->
    step self w {| pay := pay w; erc20 := l |}.

(** The worlds that can be reached after deployment at [self]. *)
Inductive reachable (self : address) : World -> Prop :=
| reach_deploy (m : Msg) (fv : address) (fb : Z) (s : State) (l : Ledger) :
    this m = self ->
    constructor m fv fb = Success s ->
    (forall t, 0 <= balanceOf l t self) ->
    reachable self {| pay := s; erc20 := l |}
| reach_step (w w' : World) :
    reachable self w -> step self w w' -> reachable self w'.

(** Any number of steps. *)
Inductive steps (self : address) : World -> World -> Prop :=
| steps_refl (w : World) : steps self w w
| steps_step (w w' w'' : World) :
    steps self w w' -> step self w' w'' -> steps self w w''.

(** The invariant of the invoices. *)
Definition invoice_ok (i : Invoice) : Prop :=
  (released i = true -> paid i = true) /\
  (paid i = false -> netAmount i = 0) /\
  (released i = true -> netAmount i = 0) /\
  (paid i = true -> released i = false ->
   0 < netAmount i /\ netAmount i <= amount i /\
   5 * (amount i - netAmount i) <= amount i).

(** The terms of an invoice, which [createInvoice] fixes. *)
Definition same_terms (i i' : Invoice) : Prop :=
  issuer i' = issuer i /\ payer i' = payer i /\ token i' = token i /\
  amount i' = amount i /\ metadataURI i' = metadataURI i /\
  createdAt i' = createdAt i.

(** How the steps change an invoice that exists. *)
Definition invoice_advances (i i' : Invoice) : Prop :=
  same_terms i i' /\
  (paid i = true -> paid i' = true) /\
  (released i = true -> released i' = true).

(** What [createInvoice] has checked of an invoice. *)
Definition invoice_filed (i : Invoice) : Prop :=
  0 < amount i <= MAX_UINT256 /\ payer i <> 0 /\ token i <> 0.

(** What holds in every reachable world: the fee cap and the fee vault, the
    numbering of the invoices, their life cycle, and enough tokens to honour
    them. *)
Definition invariant (self : address) (w : World) : Prop :=
  let s := pay w in
  (0 <= feeBps s <= 2000 /\ feeVault s <> 0) /\
  1 <= nextInvoiceId s <= MAX_UINT256 /\
  (forall id, invoice_ok (invoices s id)) /\
  (forall id, id <= 0 \/ nextInvoiceId s <= id -> invoices s id = no_invoice) /\
  (forall id, 0 < id < nextInvoiceId s -> invoice_filed (invoices s id)) /\
  (forall t, escrowed s t <= balanceOf (erc20 w) t self).

End ArcadiaPay.

(** Sample accounts and worlds: a deployment with a fee of 1%, and the
    flow create, pay, release of an invoice of 100 units. *)
Module PaySamples.
Import ArcadiaPay.

Definition self : address := 1000.
Definition deployer : address := 1.
Definition vault : address := 2.
Definition issuer_ : address := 3.
Definition payer_ : address := 4.
Definition receiver : address := 5.
Definition usdc : address := 6.

Definition from (a : address) : Msg :=
  {| this := self; sender := a; timestamp := 1700000000 |}.

Definition minted : Ledger :=
  {| balanceOf := fun t a =>
       if (t =? usdc) && (a =? payer_) then 1000000 else 0;
     allowance := fun t a s =>
       if (t =? usdc) && (a =? payer_) && (s =? self) then 100 else 0 |}.

Definition state_of (r : tx State) : State :=
  match r with
  | Success s => s
  | _ => {| nextInvoiceId := 0; invoices := fun _ => no_invoice;
            feeBps := 0; feeVault := 0; owner := 0 |}
  end.

Definition world_of (r : tx (World * list Event)) (w : World) : World :=
  match r with
  | Success (w', _) => w'
  | _ => w
  end.

Definition deployed : World :=
  {| pay := state_of (constructor (from deployer) vault 100); erc20 := minted |}.

Definition create : Call := CallCreateInvoice payer_ usdc 100 "ipfs://meta".

Definition invoiced : World := world_of (exec (from issuer_) create deployed) deployed.

Definition paid_up : World :=
  world_of (exec (from payer_) (CallPayInvoice 1) invoiced) invoiced.

Definition settled : World :=
  world_of (exec (from issuer_) (CallReleaseFunds 1 receiver) paid_up) paid_up.

(** The state after an invoice of the largest amount was created. *)
Definition oversized : State :=
  match createInvoice (from issuer_) payer_ usdc MAX_UINT256 "big"
                      (pay deployed) with
  | Success (_, s, _) => s
  | _ => pay deployed
  end.

(** A ledger in which every account holds, and has approved, the largest
    amount. *)
Definition rich : Ledger :=
  {| balanceOf := fun _ _ => MAX_UINT256;
     allowance := fun _ _ _ => MAX_UINT256 |}.

End PaySamples.

(** ** scripts/timelockHelper.js: the command line *)

Module CommandLine.

Import TimelockHelper.

(** The object [opts]: the properties written so far, newest first.  It is
    read only under the names the script uses ([_cmd], [salt], [timeout],
    ...), none of which an empty object inherits.  Writing [true] or a
    string to [__proto__] leaves an object as it is. *)
Definition Opts := list (string * optval).

Fixpoint get (k : string) (o : Opts) : optval :=
  match o with
  | [] => Absent
  | (k', v) :: rest => if (k =? k')%string then v else get k rest
  end.

Definition set (k : string) (v : optval) (o : Opts) : Opts :=
  if (k =? "__proto__")%string then o else (k, v) :: o.

(** [a.startsWith("--")] and [a.slice(2)]. *)
Definition is_flag (a : string) : bool := String.prefix "--" a.

Definition slice2 (a : string) : string :=
  match a with
  | String _ (String _ rest) => rest
  | _ => EmptyString
  end.

(** [argv[i + 1] && !argv[i + 1].startsWith("--")]: the next token is there,
    is not empty and is not a flag. *)
Definition is_value (next : string) : bool :=
  negb (next =? "")%string && negb (is_flag next).

(** The loop of [parseArgs] over the tokens that are left. *)
Fixpoint parseArgs_from (argv : list string) (opts : Opts) : Opts :=
  match argv with
  | [] => opts
  | a :: rest =>
      if is_flag a then
        let k := slice2 a in
        match rest with
        | next :: rest' =>
            if is_value next then parseArgs_from rest' (set k (Value next) opts)
            else parseArgs_from rest (set k Flag opts)
        | [] => set k Flag opts
        end
      else if negb (opt_truthy (get "_cmd" opts)) then
        parseArgs_from rest (set "_cmd" (Value a) opts)
      else parseArgs_from rest opts
  end.

(** [parseArgs()], with [argv] for [process.argv.slice(2)]. *)
Definition parseArgs (argv : list string) : Opts := parseArgs_from argv [].

(** The flag that sets option [k]. *)
Definition flag (k : string) : string := String "-" (String "-" k).

(** The options [o] were read from the tokens [all]: a string stored is
    a token that is no flag, and under any name but [_cmd] it is a
    non-empty token that stands right after the flag of that name. *)
Definition read_from (all : list string) (o : Opts) : Prop :=
  forall k v, get k o = Value v ->
    In v all /\ is_flag v = false /\
    (k <> "_cmd"%string ->
     v <> EmptyString /\ exists pre post, all = pre ++ flag k :: v :: post).

(** All characters are decimal digits, and there is one at least. *)
Definition is_digit (c : ascii) : bool :=
  let n := nat_of_ascii c in (48 <=? n)%nat && (n <=? 57)%nat.

Definition all_digits (s : string) : bool :=
  negb (s =? "")%string && forallb is_digit (list_ascii_of_string s).

End CommandLine.

(** ** backend/scripts/demo_verify.js: main *)

Module DemoMain.

Import Ethers DemoVerify.

(** An entry of [fixture.samples] and the object [fixture.batch]; a
    property that is missing is [JUndefined]. *)
Record Sample := { sample_signature : jsval; sample_data : jsval }.

Record Batch := {
  targets : jsval;
  values : jsval;
  batch_salt_used : jsval;
  batch_opId : jsval
}.

(** The parsed fixture.  [samples] is left out or an array of objects,
    [batch] is left out or an object. *)
Record Fixture := {
  samples : option (list Sample);
  batch : option Batch;
  mode : jsval;
  signature : jsval;
  data : jsval;
  target : jsval;
  value : jsval;
  salt_used : jsval;
  recorded_opId : jsval
}.

(** What the script finds: no argument, no file at the path, a file that
    [loadFixture] cannot read or that holds no object, or a fixture. *)
Inductive Run :=
| NoArgument
| NoFile
| Unreadable
| Loaded (f : Fixture).

(** [s === v] for a string [s]. *)
Definition same_string (s : string) (v : jsval) : bool :=
  match v with
  | JStr s' => (s =? s')%string
  | _ => false
  end.

(** [process.exit(opId === recorded ? 0 : 2)], or the [catch] of [main]. *)
Definition exit_of (r : result OpIdResult) (recorded : jsval) : Z :=
  match r with
  | Ok r => if same_string (opId r) recorded then 0 else 2
  | Err _ => 1
  end.

(** [new ethers.Interface(...)] followed by [decodeFunctionData]: whether
    the two return (they throw otherwise).  Version 5 has no
    [ethers.Interface]; in version 6, [decodes signature data] tells whether
    the interface of [signature] decodes [data]. *)
Definition decoded (lib : version) (decodes : jsval -> jsval -> bool)
  (signature data : jsval) : bool :=
  match lib with
  | v5 => false
  | v6 => decodes signature data
  end.

(** The exit code of [main]. *)
Definition main (lib : version) (decodes : jsval -> jsval -> bool) (run : Run) : Z :=
  match run with
  | NoArgument | NoFile | Unreadable => 1
  | Loaded f =>
      match samples f, batch f with
      | Some ss, Some b =>
          let datasHex := JArr (map sample_data ss) in
          if forallb (fun s => decoded lib decodes (sample_signature s) (sample_data s)) ss
          then exit_of (computeOpIdBatch lib (targets b) (values b) datasHex JNull
                          (batch_salt_used b))
                       (batch_opId b)
          else 1
      | _, _ =>
          if same_string "single" (mode f) then
            if decoded lib decodes (signature f) (data f)
            then exit_of (computeOpIdSingle lib (target f) (value f) (data f) JNull
                            (salt_used f))
                         (recorded_opId f)
            else 1
          else 1
      end
  end.

End DemoMain.

(** * Properties *)

(** ** Bytes *)

Lemma Z_of_byte_range (b : byte) : 0 <= Z_of_byte b < 256.
Proof.
  unfold Z_of_byte. pose proof (Byte.to_N_bounded b). lia.
Qed.

Lemma byte_of_Z_of_byte (b : byte) : byte_of_Z (Z_of_byte b) = b.
Proof.
  unfold byte_of_Z. pose proof (Z_of_byte_range b) as Hb.
  rewrite Z.mod_small by lia. unfold Z_of_byte.
  rewrite N2Z.id, Byte.of_to_N. reflexivity.
Qed.

Lemma Z_of_byte_of_Z (z : Z) : Z_of_byte (byte_of_Z z) = z mod 256.
Proof.
  unfold byte_of_Z, Z_of_byte.
  pose proof (Z.mod_pos_bound z 256 ltac:(lia)) as Hm.
  destruct (Byte.of_N (Z.to_N (z mod 256))) as [b|] eqn:E.
  - apply Byte.to_of_N in E. rewrite E. lia.
  - apply Byte.of_N_None_iff in E. lia.
Qed.

Lemma length_be_bytes (n : nat) (z : Z) : length (be_bytes n z) = n.
Proof.
  revert z. induction n as [|n IH]; intros z; simpl.
  - reflexivity.
  - rewrite length_app, IH. simpl. lia.
Qed.

Lemma length_le_bytes (n : nat) (z : Z) : length (le_bytes n z) = n.
Proof.
  revert z. induction n as [|n IH]; intros z; simpl; [reflexivity|].
  now rewrite IH.
Qed.

Lemma be_val_snoc (bs : bytes) (b : byte) :
  be_val (bs ++ [b]) = 256 * be_val bs + Z_of_byte b.
Proof.
  unfold be_val. rewrite fold_left_app. reflexivity.
Qed.

Lemma be_val_be_bytes (n : nat) (z : Z) :
  be_val (be_bytes n z) = z mod 256 ^ Z.of_nat n.
Proof.
  revert z. induction n as [|n IH]; intros z.
  - simpl. now rewrite Z.mod_1_r.
  - cbn [be_bytes]. rewrite be_val_snoc, IH, Z_of_byte_of_Z.
    rewrite Nat2Z.inj_succ, Z.pow_succ_r by lia.
    rewrite (Z.rem_mul_r z 256 (256 ^ Z.of_nat n)) by lia. lia.
Qed.

Lemma be_bytes_inj (n : nat) (a b : Z) :
  0 <= a < 256 ^ Z.of_nat n -> 0 <= b < 256 ^ Z.of_nat n ->
  be_bytes n a = be_bytes n b -> a = b.
Proof.
  intros Ha Hb E. apply (f_equal be_val) in E.
  rewrite !be_val_be_bytes, !Z.mod_small in E; assumption.
Qed.

(** ** Keccak-256 *)

Lemma length_keccak256 (msg : bytes) : length (Keccak.keccak256 msg) = 32%nat.
Proof.
  unfold Keccak.keccak256, Keccak.squeeze.
  rewrite !length_app, !length_le_bytes. reflexivity.
Qed.

(** Known digests: the empty message, a short one, messages that end one
    byte before and exactly on a block boundary, and one of three blocks. *)
Example keccak256_empty :
  Hex.print_pairs (Keccak.keccak256 []) =
  "c5d2460186f7233c927e7db2dcc703c0e500b653ca82273b7bfad8045d85a470"%string.
Proof. vm_compute. reflexivity. Qed.

Example keccak256_abc :
  Hex.print_pairs (Keccak.keccak256 (Ethers.toUtf8Bytes "abc")) =
  "4e03657aea45a94fc7d47ba826c8d667c0d1e6e33a64a036ec44f58fa12d6c45"%string.
Proof. vm_compute. reflexivity. Qed.

Example keccak256_135_bytes :
  Hex.print_pairs (Keccak.keccak256 (repeat "z"%byte 135)) =
  "796f5184228df590c13bfb8992d2c10b6562903362103899249736357eb573fd"%string.
Proof. vm_compute. reflexivity. Qed.

Example keccak256_136_bytes :
  Hex.print_pairs (Keccak.keccak256 (repeat "z"%byte 136)) =
  "327342df60fc3babfa000784599814c07bfd08539f983a45b62ba0f1a51c02aa"%string.
Proof. vm_compute. reflexivity. Qed.

Example keccak256_three_blocks :
  Hex.print_pairs (Keccak.keccak256 (repeat "z"%byte 300)) =
  "66334e06e47d4d3a5bcf2eb22a6aeb205a984e53b3b089b2eb632cf24dde6059"%string.
Proof. vm_compute. reflexivity. Qed.

(** The selector of [transfer(address,uint256)]. *)
Example keccak256_selector :
  firstn 4 (Keccak.keccak256 (Ethers.toUtf8Bytes "transfer(address,uint256)")) =
  [xa9; x05; x9c; xbb].
Proof. vm_compute. reflexivity. Qed.

(** ** Hex strings *)

Lemma hex_byte_roundtrip (b : byte) :
  Hex.hex_digit (Hex.hex_char (Z_of_byte b / 16)) = Some (Z_of_byte b / 16) /\
  Hex.hex_digit (Hex.hex_char (Z_of_byte b mod 16)) = Some (Z_of_byte b mod 16) /\
  byte_of_Z (16 * (Z_of_byte b / 16) + Z_of_byte b mod 16) = b.
Proof.
  destruct b; vm_compute; repeat split.
Qed.

Lemma parse_print_pairs (bs : bytes) :
  Hex.parse_pairs (Hex.print_pairs bs) = Some bs.
Proof.
  induction bs as [|b bs IH]; [reflexivity|].
  cbn [Hex.print_pairs Hex.parse_pairs].
  destruct (hex_byte_roundtrip b) as (-> & -> & ->). now rewrite IH.
Qed.

Lemma getBytes_hexlify (bs : bytes) :
  Ethers.getBytes (JStr (Ethers.hexlify bs)) = Ok bs.
Proof.
  unfold Ethers.getBytes, Ethers.hexlify. cbn [Ascii.eqb Bool.eqb orb].
  now rewrite parse_print_pairs.
Qed.

Lemma hexlify_inj (x y : bytes) : Ethers.hexlify x = Ethers.hexlify y -> x = y.
Proof.
  intros E. pose proof (getBytes_hexlify x) as Hx.
  rewrite E, getBytes_hexlify in Hx. congruence.
Qed.

Lemma parse_pairs_length (s : string) (bs : bytes) :
  Hex.parse_pairs s = Some bs -> String.length s = (2 * length bs)%nat.
Proof.
  remember (String.length s) as n eqn:Hn. revert s bs Hn.
  induction n as [n IH] using lt_wf_ind. intros s bs Hn H.
  destruct s as [|c1 [|c2 rest]]; cbn [Hex.parse_pairs] in H.
  - injection H as <-. subst. reflexivity.
  - discriminate.
  - destruct (Hex.hex_digit c1); [|discriminate].
    destruct (Hex.hex_digit c2); [|discriminate].
    destruct (Hex.parse_pairs rest) as [bs'|] eqn:E; [|discriminate].
    injection H as <-. subst n. cbn [String.length length].
    rewrite (IH (String.length rest) ltac:(simpl; lia) rest bs' eq_refl E). lia.
Qed.

Lemma getAddress_length (v : jsval) (a : bytes) :
  Ethers.getAddress v = Ok a -> length a = 20%nat.
Proof.
  unfold Ethers.getAddress. destruct v as [| | |s| | |]; try discriminate.
  set (body := match s with String "0" (String "x" r) => r | _ => s end).
  destruct (String.length body =? 40)%nat eqn:L; [|discriminate].
  destruct (Hex.parse_pairs body) as [a'|] eqn:P; [|discriminate].
  apply Nat.eqb_eq in L. apply parse_pairs_length in P.
  destruct (_ && _); [discriminate|]. intros [= <-]. lia.
Qed.

(** EIP-55: a checksummed address is accepted, the same digits with one
    letter in the wrong case are not, and all-lower-case digits are. *)
Example getAddress_checksummed :
  Ethers.getAddress (JStr "0x5aAeb6053F3E94C9b9A09f33669435E7Ef1BeAed") =
  Ethers.getAddress (JStr "0x5aaeb6053f3e94c9b9a09f33669435e7ef1beaed") /\
  Ethers.getAddress (JStr "0x5AAeb6053F3E94C9b9A09f33669435E7Ef1BeAed") =
  Err (InvalidArgument "bad address checksum").
Proof. split; vm_compute; reflexivity. Qed.

Example getBytes_samples :
  Ethers.getBytes (JStr "0x1234abCD") = Ok [x12; x34; xab; xcd] /\
  Ethers.getBytes (JStr "0x") = Ok [] /\
  Ethers.getBytes (JStr "0x123") = Err (InvalidArgument "invalid BytesLike value") /\
  Ethers.getBytes (JStr "") = Err (InvalidArgument "invalid BytesLike value").
Proof. repeat split. Qed.

Example parseInt_samples :
  TimelockHelper.parseInt (TimelockHelper.Value "600") = TimelockHelper.Num 600 /\
  TimelockHelper.parseInt (TimelockHelper.Value " 12px") = TimelockHelper.Num 12 /\
  TimelockHelper.parseInt (TimelockHelper.Value "0x1f") = TimelockHelper.Num 31 /\
  TimelockHelper.parseInt (TimelockHelper.Value "abc") = TimelockHelper.NaN /\
  TimelockHelper.parseInt TimelockHelper.Flag = TimelockHelper.NaN /\
  TimelockHelper.timeout_of (TimelockHelper.Value "0") = TimelockHelper.Num 0 /\
  TimelockHelper.timeout_of TimelockHelper.Absent = TimelockHelper.Num 600 /\
  TimelockHelper.interval_of (TimelockHelper.Value "") = TimelockHelper.Num 5.
Proof. repeat split. Qed.

(** ** The operation identifier *)

Section OpIdClaims.

Import Ethers AbiCoder DemoVerify TimelockHelper.

(** C1 (code defect): the identifier computed on the client side is meant
    to be the one the timelock's [hashOperation] gives for the same five
    fields.  For the sample operation the timelock returns an identifier;
    [computeOpIdSingle] throws at its first statement and returns none;
    and the rule written after that statement, which is the one of the
    specification, names yet another value. *)
Theorem C1_client_throws_where_hashOperation_returns :
  ArcadiaTimelock.call_hashOperation Samples.target (JNum 0) Samples.data
      Samples.zero_word Samples.salt
    = Ok "0xa35040f659ea759cd02ecbbc9a39512679fa2b80dd577da4982160ca66ddfc65"%string /\
  (forall lib,
     computeOpIdSingle lib Samples.target (JNum 0) Samples.data
         Samples.zero_word Samples.salt
       = Err (TypeError (new_defaultAbiCoder_error lib))) /\
  Spec.opId_single Samples.target (JNum 0) Samples.data Samples.zero_word
      Samples.salt
    = Ok "0x61fcbea6edb70a8e4dcda8414bdf14f137661f159cd20c51ac0aa3a6a24685d2"%string.
Proof.
  split; [vm_compute; reflexivity |].
  split; [intros lib; reflexivity | vm_compute; reflexivity].
Qed.

(** C2 (code defect): with an explicit salt the identifier is to be the
    hash of the ABI encoding of the five-field tuple.  At the sample
    operation and the sample batch that value exists, and both functions
    throw at their first statement instead of returning it. *)
Theorem C2_explicit_salt_gives_no_identifier (lib : version) :
  Spec.opId_single Samples.target (JNum 7) Samples.data Samples.zero_word
      Samples.salt
    = Ok "0xa166c55599f19da09d983f654fd6c4c251a5e2223825d654f50d06c170fef94a"%string /\
  computeOpIdSingle lib Samples.target (JNum 7) Samples.data Samples.zero_word
      Samples.salt
    = Err (TypeError (new_defaultAbiCoder_error lib)) /\
  Spec.opId_batch [Samples.target; Samples.other] [JNum 7; JNum 0]
      [Samples.data; JStr "0x"] Samples.zero_word Samples.salt
    = Ok "0x449dace7a7e08a6675c0f392916977d60608784507d263f91e028c4e72bcbc9f"%string /\
  computeOpIdBatch lib (JArr [Samples.target; Samples.other])
      (JArr [JNum 7; JNum 0]) (JArr [Samples.data; JStr "0x"])
      Samples.zero_word Samples.salt
    = Err (TypeError (new_defaultAbiCoder_error lib)).
Proof.
  split; [vm_compute; reflexivity |].
  split; [reflexivity |].
  split; [vm_compute; reflexivity | reflexivity].
Qed.



(** C4 (code defect): without a salt, equal inputs are to give equal salts
    and identifiers.  No path that derives a salt returns one: both
    identifier functions throw at their first statement, and [mkSalt],
    when [--salt] is left out, throws at [ethers.toUtf8Bytes]. *)
Theorem C4_no_salt_is_derived (lib : version) (env : Env) :
  computeOpIdSingle lib Samples.target (JNum 7) Samples.data JNull JUndefined
    = Err (TypeError (new_defaultAbiCoder_error lib)) /\
  computeOpIdBatch lib (JArr [Samples.target; Samples.other])
      (JArr [JNum 7; JNum 0]) (JArr [Samples.data; JStr "0x"]) JNull JUndefined
    = Err (TypeError (new_defaultAbiCoder_error lib)) /\
  mkSalt env Absent = Err (TypeError "ethers.toUtf8Bytes is not a function").
Proof. repeat split. Qed.

(** C5 (code defect): a batch and the batch with its two operations
    exchanged are to get different identifiers.  The rule of the
    specification tells them apart; [computeOpIdBatch] throws at its first
    statement on both and gives neither an identifier. *)
Theorem C5_reordered_batch_gives_no_identifier (lib : version) :
  Spec.opId_batch [Samples.target; Samples.other] [JNum 7; JNum 0]
      [Samples.data; JStr "0x"] Samples.zero_word Samples.salt
    = Ok "0x449dace7a7e08a6675c0f392916977d60608784507d263f91e028c4e72bcbc9f"%string /\
  Spec.opId_batch [Samples.other; Samples.target] [JNum 0; JNum 7]
      [JStr "0x"; Samples.data] Samples.zero_word Samples.salt
    = Ok "0x40fdb883527299522ffd46998db6b09dea901ce3923994dc3fffb4aaf48991df"%string /\
  computeOpIdBatch lib (JArr [Samples.target; Samples.other])
      (JArr [JNum 7; JNum 0]) (JArr [Samples.data; JStr "0x"])
      Samples.zero_word Samples.salt
    = Err (TypeError (new_defaultAbiCoder_error lib)) /\
  computeOpIdBatch lib (JArr [Samples.other; Samples.target])
      (JArr [JNum 0; JNum 7]) (JArr [JStr "0x"; Samples.data])
      Samples.zero_word Samples.salt
    = Err (TypeError (new_defaultAbiCoder_error lib)).
Proof.
  split; [vm_compute; reflexivity |].
  split; [vm_compute; reflexivity |].
  split; reflexivity.
Qed.

(** C6 (code defect): without a salt, the salt is to be the hash of the ABI
    encoding of the data, the target, the value and the predecessor (of
    the targets, the values, the inner hash and the predecessor for a
    batch).  At the sample operation and the sample batch that salt
    exists, and both functions throw at their first statement instead of
    deriving it. *)
Theorem C6_derived_salt_is_not_returned (lib : version) :
  Spec.salt_single Samples.target (JNum 7) Samples.data Samples.zero_word
    = Ok "0xe92b8c054f5fa3ff3b094fa5621f29186947f8eb0fd32904eddd4f5a0964cf35"%string /\
  computeOpIdSingle lib Samples.target (JNum 7) Samples.data Samples.zero_word
      JUndefined
    = Err (TypeError (new_defaultAbiCoder_error lib)) /\
  Spec.salt_batch [Samples.target; Samples.other] [JNum 7; JNum 0]
      [Samples.data; JStr "0x"] Samples.zero_word
    = Ok "0xa3bba8a586e92260d3f538795f35f5cce227cadc2cf6489bece7eec30e60752e"%string /\
  computeOpIdBatch lib (JArr [Samples.target; Samples.other])
      (JArr [JNum 7; JNum 0]) (JArr [Samples.data; JStr "0x"])
      Samples.zero_word JUndefined
    = Err (TypeError (new_defaultAbiCoder_error lib)).
Proof.
  split; [vm_compute; reflexivity |].
  split; [reflexivity |].
  split; [vm_compute; reflexivity | reflexivity].
Qed.

(** C9 (code defect): a [null], [undefined] or empty predecessor is to
    stand for the zero word.  With the zero word the rule of the
    specification gives an identifier; with [null] the function throws at
    its first statement; and what the function puts in the place of a
    missing predecessor is [ethers.ZeroBytes32], which is [undefined] and
    which the [bytes32] coder turns down, where it takes the zero word. *)
Theorem C9_missing_predecessor_is_not_the_zero_word (lib : version) :
  Spec.opId_single Samples.target (JNum 7) Samples.data Samples.zero_word
      Samples.salt
    = Ok "0xa166c55599f19da09d983f654fd6c4c251a5e2223825d654f50d06c170fef94a"%string /\
  computeOpIdSingle lib Samples.target (JNum 7) Samples.data JNull Samples.salt
    = Err (TypeError (new_defaultAbiCoder_error lib)) /\
  js_or JNull ZeroBytes32 = JUndefined /\
  js_or JUndefined ZeroBytes32 = JUndefined /\
  js_or (JStr EmptyString) ZeroBytes32 = JUndefined /\
  getBytes32 JUndefined = Err (InvalidArgument "invalid BytesLike value") /\
  getBytes32 Samples.zero_word = Ok Samples.zero32.
Proof.
  split; [vm_compute; reflexivity |].
  repeat split.
Qed.

End OpIdClaims.


(** ** The verify loop *)

Section VerifyLoop.

Import TimelockHelper.

Variables (w : World) (id : string) (interval timeout : jsnum) (start : Z).

Lemma poll_S (fuel : nat) :
  poll w id interval timeout start (S fuel) =
  (ready <~ query_ready w id ;;
   done <~ query_done w id ;;
   pending <~ query_pending w id ;;
   if ready then
     ret (Returned {| opId := id; ready := true;
                      done := done; pending := pending |})
   else if done then
     ret (Returned {| opId := id; ready := false;
                      done := true; pending := false |})
   else
     now <~ date_now w ;;
     let exceeded := elapsed_exceeds now start timeout in
     _ <~ emit (EvTimeoutCheck exceeded) ;;
     if exceeded then ret (Threw Timeout)
     else
       _ <~ emit (EvSleep (times1000 interval)) ;;
       poll w id interval timeout start fuel)%verify.
Proof. reflexivity. Qed.

Ltac poll_step :=
  rewrite poll_S; unfold reads, check;
  repeat (cbn -[elapsed_exceeds poll]; unfold ret, log;
          match goal with
          | H : _ = _ |- _ => rewrite H
          end);
  cbn -[elapsed_exceeds poll]; rewrite <- ?app_assoc; try reflexivity.

Lemma poll_ready (k fuel : nat) (tr : list event) :
  isOperationReady w id k = true ->
  poll w id interval timeout start (S fuel) (at_poll k tr) =
  (Returned {| opId := id; ready := true;
               done := isOperationDone w id k;
               pending := isOperationPending w id k |},
   {| n_ready := S k; n_done := S k; n_pending := S k; n_clock := S k;
      trace := tr ++ reads w id k |}).
Proof. intros Hr. poll_step. Qed.

Lemma poll_done (k fuel : nat) (tr : list event) :
  isOperationReady w id k = false -> isOperationDone w id k = true ->
  poll w id interval timeout start (S fuel) (at_poll k tr) =
  (Returned {| opId := id; ready := false; done := true; pending := false |},
   {| n_ready := S k; n_done := S k; n_pending := S k; n_clock := S k;
      trace := tr ++ reads w id k |}).
Proof. intros Hr Hd. poll_step. Qed.

Lemma poll_timeout (k fuel : nat) (tr : list event) :
  isOperationReady w id k = false -> isOperationDone w id k = false ->
  elapsed_exceeds (clock w (S k)) start timeout = true ->
  poll w id interval timeout start (S fuel) (at_poll k tr) =
  (Threw Timeout,
   {| n_ready := S k; n_done := S k; n_pending := S k; n_clock := S (S k);
      trace := tr ++ reads w id k ++ check w start timeout k |}).
Proof. intros Hr Hd He. poll_step. Qed.

Lemma poll_sleep (k fuel : nat) (tr : list event) :
  isOperationReady w id k = false -> isOperationDone w id k = false ->
  elapsed_exceeds (clock w (S k)) start timeout = false ->
  poll w id interval timeout start (S fuel) (at_poll k tr) =
  poll w id interval timeout start fuel
    (at_poll (S k) (tr ++ reads w id k ++ check w start timeout k ++ [EvSleep (times1000 interval)])).
Proof. intros Hr Hd He. poll_step. Qed.

Lemma poll_quiet (n k fuel : nat) (tr : list event) :
  quiet w id start timeout k n ->
  exists ext,
    poll w id interval timeout start (n + fuel) (at_poll k tr) =
    poll w id interval timeout start fuel (at_poll (k + n) (tr ++ ext)).
Proof.
  revert k tr. induction n as [|n IH]; intros k tr Q.
  - exists []. rewrite app_nil_r, Nat.add_0_r. reflexivity.
  - destruct (Q k ltac:(lia)) as (Hr & Hd & He).
    cbn [Nat.add]. rewrite (poll_sleep _ _ _ Hr Hd He).
    destruct (IH (S k) (tr ++ reads w id k ++ check w start timeout k ++ [EvSleep (times1000 interval)]))
      as [ext E].
    { intros j Hj. apply Q. lia. }
    rewrite E. rewrite <- app_assoc. replace (S k + n)%nat with (k + S n)%nat by lia.
    eexists. reflexivity.
Qed.

(** Whatever happens, the trace only grows. *)
Lemma poll_extends (fuel : nat) (s : state) :
  exists ext, trace (snd (poll w id interval timeout start fuel s)) = trace s ++ ext.
Proof.
  revert s. induction fuel as [|fuel IH]; intros s.
  - exists []. cbn. now rewrite app_nil_r.
  - rewrite poll_S. cbn -[elapsed_exceeds poll]. unfold log. cbn [trace].
    destruct (isOperationReady w id (n_ready s)).
    { cbn. rewrite <- !app_assoc. eexists. reflexivity. }
    destruct (isOperationDone w id (n_done s)).
    { cbn. rewrite <- !app_assoc. eexists. reflexivity. }
    cbn -[elapsed_exceeds poll]. unfold log. cbn [trace].
    destruct (elapsed_exceeds _ _ _).
    { cbn. rewrite <- !app_assoc. eexists. reflexivity. }
    unfold bindM, emit, log. cbn [trace].
    match goal with |- context [poll _ _ _ _ _ fuel ?s'] => destruct (IH s') as [ext E] end.
    rewrite E. cbn [trace]. rewrite <- !app_assoc. eexists. reflexivity.
Qed.

End VerifyLoop.

Section VerifyClaims.

Import TimelockHelper.

Variables (w : World) (id : string) (opts_interval opts_timeout : optval).

Lemma cmdVerify_start (fuel : nat) :
  cmdVerify w id opts_interval opts_timeout fuel initial =
  poll w id (interval_of opts_interval) (timeout_of opts_timeout) (clock w 0)
       fuel (at_poll 0 [EvClock (clock w 0)]).
Proof. reflexivity. Qed.

Lemma elapsed_exceeds_Num (now start t : Z) :
  elapsed_exceeds now start (Num t) = true <-> 1000 * t < now - start.
Proof. unfold elapsed_exceeds. apply Z.ltb_lt. Qed.

Lemma elapsed_exceeds_Num_false (now start t : Z) :
  elapsed_exceeds now start (Num t) = false <-> now - start <= 1000 * t.
Proof. unfold elapsed_exceeds. rewrite Z.ltb_ge. reflexivity. Qed.

(** C7: when the timelock answers [isOperationDone = true] with
    [isOperationReady = false] (at the first poll, or at a later one reached
    without an answer and without a timeout), verify returns the object
    with [done = true]; it neither times out nor throws. *)
Theorem C7_done_without_ready_is_success (k fuel : nat) :
  quiet w id (clock w 0) (timeout_of opts_timeout) 0 k ->
  isOperationReady w id k = false ->
  isOperationDone w id k = true ->
  (k < fuel)%nat ->
  fst (cmdVerify w id opts_interval opts_timeout fuel initial) =
  Returned {| opId := id; ready := false; done := true; pending := false |}.
Proof.
  intros Q Hr Hd Hk. rewrite cmdVerify_start.
  replace fuel with (k + S (fuel - S k))%nat by lia.
  destruct (poll_quiet w id (interval_of opts_interval) (timeout_of opts_timeout)
              (clock w 0) k 0 (S (fuel - S k)) [EvClock (clock w 0)] Q)
    as [ext E].
  rewrite E. cbn [Nat.add]. now rewrite (poll_done _ _ _ _ _ _ _ _ Hr Hd).
Qed.

Lemma poll_threw_inv (interval : jsnum) (t : Z) (fuel : nat) :
  (forall n, isOperationReady w id n = false) ->
  (forall n, isOperationDone w id n = false) ->
  forall k tr e st,
    (forall j, (j < k)%nat -> clock w (S j) - clock w 0 <= 1000 * t) ->
    poll w id interval (Num t) (clock w 0) fuel (at_poll k tr) = (Threw e, st) ->
    e = Timeout /\
    exists k', n_clock st = S (S k') /\
               1000 * t < clock w (S k') - clock w 0 /\
               forall j, (j < k')%nat -> clock w (S j) - clock w 0 <= 1000 * t.
Proof.
  intros Hr Hd. induction fuel as [|fuel IH]; intros k tr e st Hbefore H.
  - discriminate H.
  - destruct (elapsed_exceeds (clock w (S k)) (clock w 0) (Num t)) eqn:He.
    + rewrite (poll_timeout _ _ _ _ _ _ _ _ (Hr k) (Hd k) He) in H.
      injection H as <- <-. split; [reflexivity|]. exists k. cbn [n_clock].
      apply elapsed_exceeds_Num in He. auto.
    + rewrite (poll_sleep _ _ _ _ _ _ _ _ (Hr k) (Hd k) He) in H.
      apply IH in H; [exact H|]. intros j Hj.
      apply elapsed_exceeds_Num_false in He.
      destruct (Nat.eq_dec j k) as [->|]; [exact He|apply Hbefore; lia].
Qed.

(** C8: when the timelock never answers ready nor done, verify throws the
    timeout error at the first test at which the elapsed time exceeds the
    configured timeout (given enough iterations), and whenever it throws,
    the elapsed time at that test exceeds the timeout and did not at any
    earlier test. *)
Theorem C8_timeout_only_after_elapsed (t : Z) :
  timeout_of opts_timeout = Num t ->
  (forall n, isOperationReady w id n = false) ->
  (forall n, isOperationDone w id n = false) ->
  (forall k fuel,
      (forall j, (j < k)%nat -> clock w (S j) - clock w 0 <= 1000 * t) ->
      1000 * t < clock w (S k) - clock w 0 ->
      (k < fuel)%nat ->
      exists st,
        cmdVerify w id opts_interval opts_timeout fuel initial = (Threw Timeout, st)
        /\ n_clock st = S (S k))
  /\
  (forall fuel e st,
      cmdVerify w id opts_interval opts_timeout fuel initial = (Threw e, st) ->
      e = Timeout /\
      exists k, n_clock st = S (S k) /\
                1000 * t < clock w (S k) - clock w 0 /\
                forall j, (j < k)%nat -> clock w (S j) - clock w 0 <= 1000 * t).
Proof.
  intros Ht Hr Hd. split.
  - intros k fuel Hbefore Hnow Hk. rewrite cmdVerify_start, Ht.
    replace fuel with (k + S (fuel - S k))%nat by lia.
    destruct (poll_quiet w id (interval_of opts_interval) (Num t)
                (clock w 0) k 0 (S (fuel - S k)) [EvClock (clock w 0)])
      as [ext E].
    { intros j Hj. repeat split; auto.
      apply elapsed_exceeds_Num_false, Hbefore. lia. }
    rewrite E. cbn [Nat.add]. apply elapsed_exceeds_Num in Hnow.
    rewrite (poll_timeout _ _ _ _ _ _ _ _ (Hr k) (Hd k) Hnow).
    eexists. split; reflexivity.
  - intros fuel e st H. rewrite cmdVerify_start, Ht in H.
    apply (poll_threw_inv _ _ _ Hr Hd) in H; [exact H|]. intros j Hj. lia.
Qed.

(** With a timeout that is not a number the test never succeeds: a loop
    that sees neither ready nor done keeps polling. *)
Lemma nan_timeout_never_throws (interval : jsnum) (start : Z) (fuel : nat) :
  (forall n, isOperationReady w id n = false) ->
  (forall n, isOperationDone w id n = false) ->
  forall k tr,
    fst (poll w id interval NaN start fuel (at_poll k tr)) = StillPolling.
Proof.
  intros Hr Hd. induction fuel as [|fuel IH]; intros k tr.
  - reflexivity.
  - rewrite (poll_sleep w id interval NaN start k fuel tr (Hr k) (Hd k) eq_refl).
    apply IH.
Qed.

Lemma first_iteration_trace (fuel : nat) :
  exists rest,
    trace (snd (cmdVerify w id opts_interval opts_timeout (S fuel) initial)) =
    EvClock (clock w 0) :: reads w id 0 ++ rest.
Proof.
  rewrite cmdVerify_start.
  set (iv := interval_of opts_interval). set (to := timeout_of opts_timeout).
  destruct (isOperationReady w id 0%nat) eqn:Hr.
  { rewrite (poll_ready _ _ _ _ _ _ _ _ Hr). exists []. cbn [snd trace].
    now rewrite app_nil_r. }
  destruct (isOperationDone w id 0%nat) eqn:Hd.
  { rewrite (poll_done _ _ _ _ _ _ _ _ Hr Hd). exists []. cbn [snd trace].
    now rewrite app_nil_r. }
  destruct (elapsed_exceeds (clock w 1) (clock w 0) to) eqn:He.
  { rewrite (poll_timeout _ _ _ _ _ _ _ _ Hr Hd He). eexists. reflexivity. }
  rewrite (poll_sleep _ _ _ _ _ _ _ _ Hr Hd He).
  match goal with
  | |- context [poll _ _ _ _ _ fuel ?s] =>
      destruct (poll_extends w id iv to (clock w 0) fuel s) as [ext E]
  end.
  rewrite E. cbn [trace at_poll]. cbn [app]. rewrite <- !app_assoc.
  eexists. reflexivity.
Qed.

(** C10: a run of verify starts by reading the clock and then the three
    predicates; every evaluation of the timeout condition comes after a
    read of each of them; and with a timeout of 0 an operation that is
    ready or done at the first read is reported as such. *)
Theorem C10_reads_precede_timeout_check (fuel : nat) :
  let run := cmdVerify w id opts_interval opts_timeout (S fuel) initial in
  (exists rest,
      trace (snd run) = EvClock (clock w 0) :: reads w id 0 ++ rest)
  /\
  (forall pre b post,
      trace (snd run) = pre ++ EvTimeoutCheck b :: post ->
      In (EvReady (isOperationReady w id 0)) pre /\
      In (EvDone (isOperationDone w id 0)) pre /\
      In (EvPending (isOperationPending w id 0)) pre)
  /\
  (timeout_of opts_timeout = Num 0 ->
   isOperationReady w id 0 = true \/ isOperationDone w id 0 = true ->
   exists r, fst run = Returned r /\ (ready r = true \/ done r = true)).
Proof.
  intros run. destruct (first_iteration_trace fuel) as [rest E].
  fold run in E. split; [|split].
  - exists rest. exact E.
  - intros pre b post H. rewrite E in H. unfold reads in H. cbn [app] in H.
    destruct pre as [|e1 [|e2 [|e3 [|e4 pre]]]]; cbn [app] in H;
      try discriminate H.
    injection H as H1 H2 H3 H4 _. subst e1 e2 e3 e4.
    repeat split; cbn [In]; auto 8.
  - intros _ H. subst run. rewrite cmdVerify_start.
    destruct (isOperationReady w id 0%nat) eqn:Hr.
    + rewrite (poll_ready _ _ _ _ _ _ _ _ Hr). eexists. split; [reflexivity|].
      left. reflexivity.
    + destruct H as [H|Hd]; [discriminate H|].
      rewrite (poll_done _ _ _ _ _ _ _ _ Hr Hd). eexists. split; [reflexivity|].
      right. reflexivity.
Qed.

End VerifyClaims.


Lemma C7_witness :
  fst (TimelockHelper.cmdVerify Samples.done_at_third_poll "0x01"
         (TimelockHelper.Value "1") (TimelockHelper.Value "100") 5
         TimelockHelper.initial) =
  TimelockHelper.Returned
    {| TimelockHelper.opId := "0x01"; TimelockHelper.ready := false;
       TimelockHelper.done := true; TimelockHelper.pending := false |}.
Proof.
  apply (C7_done_without_ready_is_success
           Samples.done_at_third_poll "0x01"
           (TimelockHelper.Value "1") (TimelockHelper.Value "100") 2 5).
  - intros j Hj.
    destruct j as [|[|j]]; [vm_compute; auto | vm_compute; auto | lia].
  - reflexivity.
  - reflexivity.
  - lia.
Defined.

Lemma C8_witness :
  exists st,
    TimelockHelper.cmdVerify Samples.never_ready "0x01"
      (TimelockHelper.Value "1") (TimelockHelper.Value "5") 4
      TimelockHelper.initial = (TimelockHelper.Threw Timeout, st)
    /\ TimelockHelper.n_clock st = 3%nat.
Proof.
  apply (proj1 (C8_timeout_only_after_elapsed
                  Samples.never_ready "0x01"
                  (TimelockHelper.Value "1") (TimelockHelper.Value "5") 5
                  eq_refl (fun _ => eq_refl) (fun _ => eq_refl))
               1%nat 4%nat).
  - intros j Hj. destruct j as [|j]; [vm_compute; discriminate | lia].
  - vm_compute. reflexivity.
  - lia.
Defined.

Lemma C10_witness :
  exists r,
    fst (TimelockHelper.cmdVerify Samples.done_at_once "0x01"
           TimelockHelper.Absent (TimelockHelper.Value "0") 1
           TimelockHelper.initial) = TimelockHelper.Returned r
    /\ (TimelockHelper.ready r = true \/ TimelockHelper.done r = true).
Proof.
  apply (proj2 (proj2 (C10_reads_precede_timeout_check
                         Samples.done_at_once "0x01"
                         TimelockHelper.Absent (TimelockHelper.Value "0") 0))).
  - reflexivity.
  - right. reflexivity.
Defined.

(** ** ArcadiaPay *)

Section ArcadiaPayFacts.

Import ArcadiaPay.
Local Open Scope tx_scope.

Lemma abi_uint_ok (bits x : Z) (u : unit) :
  abi_uint bits x = Success u -> 0 <= x < 2 ^ bits.
Proof.
  unfold abi_uint. destruct (_ && _) eqn:E; [|discriminate].
  intros _. apply andb_true_iff in E. lia.
Qed.

(** Peels the successful prefix of a call off a hypothesis. *)
Ltac tx_inv H :=
  repeat match type of H with
         | tx_bind (require ?c _) _ = Success _ =>
             let E := fresh "E" in
             destruct c eqn:E; cbn [require tx_bind] in H; [|discriminate H]
         | tx_bind ?r _ = Success _ =>
             let E := fresh "E" in
             destruct r eqn:E; cbn [tx_bind] in H;
             [|discriminate H|discriminate H]
         end.

(** *** The ledger *)

Lemma transfer_success (l l' : Ledger) (t from to : address) (amt : Z) :
  transfer l t from to amt = Success l' ->
  from <> 0 /\ to <> 0 /\ amt <= balanceOf l t from /\
  allowance l' = allowance l /\
  forall t' a, balanceOf l' t' a = balanceOf l t' a + moved t from to amt t' a.
Proof.
  unfold transfer. intros H. tx_inv H. injection H as <-.
  apply negb_true_iff in E, E0. repeat split; try lia.
  intros t' a. unfold moved. cbn [balanceOf set_balance].
  destruct (t' =? t) eqn:Et; cbn [andb]; [|lia].
  apply Z.eqb_eq in Et. subst t'. rewrite !Z.eqb_refl. cbn [andb].
  destruct (a =? to) eqn:Ea, (a =? from) eqn:Ef; try lia;
    try (apply Z.eqb_eq in Ea); try (apply Z.eqb_eq in Ef); subst;
    rewrite ?Z.eqb_refl, ?Ef, ?Ea; cbn [andb]; lia.
Qed.

Lemma transferFrom_success (l l' : Ledger) (t spender from to : address)
      (amt : Z) :
  transferFrom l t spender from to amt = Success l' ->
  from <> 0 /\ to <> 0 /\ amt <= balanceOf l t from /\
  (allowance l t from spender = MAX_UINT256 \/ amt <= allowance l t from spender) /\
  forall t' a, balanceOf l' t' a = balanceOf l t' a + moved t from to amt t' a.
Proof.
  unfold transferFrom. intros H.
  destruct (allowance l t from spender =? MAX_UINT256) eqn:Emax; cbn [tx_bind] in H.
  - apply transfer_success in H. destruct H as (? & ? & ? & _ & ?).
    apply Z.eqb_eq in Emax. repeat split; auto.
  - unfold require in H.
    destruct (amt <=? allowance l t from spender) eqn:Ea;
      cbn [tx_bind] in H; [|discriminate H].
    destruct (negb (from =? 0)); cbn [tx_bind] in H; [|discriminate H].
    destruct (negb (spender =? 0)); cbn [tx_bind] in H; [|discriminate H].
    apply transfer_success in H. destruct H as (? & ? & ? & _ & ?).
    repeat split; auto. right. lia.
Qed.

(** *** What a successful call has checked and done *)

Lemma fee_bounds (a b : Z) :
  0 < a -> 0 <= b <= 2000 ->
  0 <= a * b / 10000 /\ 5 * (a * b / 10000) <= a /\ 0 < a - a * b / 10000.
Proof.
  intros Ha Hb.
  assert (H1 : 0 <= a * b / 10000) by (apply Z.div_pos; nia).
  pose proof (Z.mul_div_le (a * b) 10000 ltac:(lia)) as H2.
  assert (H3 : 5 * (a * b / 10000) <= a) by nia.
  repeat split; lia.
Qed.

Lemma moved_zero (t from to t' a : address) : moved t from to 0 t' a = 0.
Proof. unfold moved. destruct (_ && _), (_ && _); reflexivity. Qed.

Lemma payInvoice_success (m : Msg) (id : Z) (w w' : World) (evs : list Event) :
  0 <= feeBps (pay w) ->
  payInvoice m id w = Success (w', evs) ->
  let s := pay w in
  let inv := invoices s id in
  let fee := amount inv * feeBps s / 10000 in
  0 < id < nextInvoiceId s /\
  paid inv = false /\ sender m = payer inv /\ 0 < amount inv /\
  amount inv * feeBps s <= MAX_UINT256 /\
  (0 < fee -> feeVault s <> 0) /\
  pay w' = set_invoice s id
             {| issuer := issuer inv; payer := payer inv; token := token inv;
                amount := amount inv; netAmount := amount inv - fee;
                metadataURI := metadataURI inv; paid := true;
                released := released inv; createdAt := createdAt inv |} /\
  evs = [InvoicePaid id (sender m) (amount inv) fee] /\
  forall t a,
    balanceOf (erc20 w') t a =
    balanceOf (erc20 w) t a
    + moved (token inv) (sender m) (this m) (amount inv) t a
    + moved (token inv) (this m) (feeVault s) fee t a.
Proof.
  intros Hbps H. cbv zeta. unfold payInvoice, validInvoice in H.
  set (s := pay w) in *. set (inv := invoices s id) in *.
  tx_inv H.
  match goal with
  | E : (_ && _) = true |- _ => apply andb_true_iff in E; destruct E as [Eid1 Eid2]
  end.
  match goal with E : negb (paid inv) = true |- _ => apply negb_true_iff in E end.
  match goal with E : (sender m =? _) = true |- _ => apply Z.eqb_eq in E end.
  match goal with E : (0 <? amount inv) = true |- _ => apply Z.ltb_lt in E end.
  match goal with
  | E : transferFrom _ _ _ _ _ _ = Success ?l |- _ =>
      rename l into l1;
      apply transferFrom_success in E; destruct E as (_ & _ & _ & _ & Hb1)
  end.
  match goal with
  | E : checked_mul _ _ = Success _ |- _ =>
      unfold checked_mul in E;
      destruct (amount inv * feeBps s <=? MAX_UINT256) eqn:Emul;
      [|discriminate E]; injection E as <-
  end.
  apply Z.leb_le in Emul.
  match goal with
  | E : checked_sub _ _ = Success _ |- _ =>
      unfold checked_sub in E;
      destruct (amount inv * feeBps s / 10000 <=? amount inv);
      [|discriminate E]; injection E as <-
  end.
  set (fee := amount inv * feeBps s / 10000) in *.
  assert (Hfee : 0 <= fee) by (apply Z.div_pos; nia).
  match goal with
  | E : (if 0 <? fee then _ else _) = Success ?l2 |- _ =>
      assert (Hl : (0 < fee -> feeVault s <> 0) /\
                   forall t x, balanceOf l2 t x =
                               balanceOf l1 t x
                               + moved (token inv) (this m) (feeVault s) fee t x);
      [ destruct (0 <? fee) eqn:Ef;
        [ tx_inv E;
          match goal with
          | E' : negb _ = true |- _ => apply negb_true_iff in E'
          end;
          apply transfer_success in E; destruct E as (_ & _ & _ & _ & Hb2);
          split; [lia|exact Hb2]
        | injection E as <-; apply Z.ltb_ge in Ef;
          assert (fee = 0) as -> by lia;
          split; [lia|intros; rewrite moved_zero; lia] ]
      | ]
  end.
  destruct Hl as [Hv Hb2]. injection H as <- <-. cbn [pay erc20].
  repeat split; try lia; auto.
  intros t x. rewrite Hb2, Hb1. reflexivity.
Qed.

(** The invoice after its funds have left. *)
Lemma pay_out_success (m : Msg) (id : Z) (to : address) (w w' : World)
      (evs : list Event) :
  releaseFunds m id to w = Success (w', evs) \/
  refund m id to w = Success (w', evs) ->
  let s := pay w in
  let inv := invoices s id in
  0 < id < nextInvoiceId s /\
  paid inv = true /\ released inv = false /\ 0 < netAmount inv /\
  (sender m = issuer inv \/ sender m = owner s) /\
  this m <> 0 /\ to <> 0 /\
  netAmount inv <= balanceOf (erc20 w) (token inv) (this m) /\
  pay w' = set_invoice s id
             {| issuer := issuer inv; payer := payer inv; token := token inv;
                amount := amount inv; netAmount := 0;
                metadataURI := metadataURI inv; paid := paid inv;
                released := true; createdAt := createdAt inv |} /\
  forall t x,
    balanceOf (erc20 w') t x =
    balanceOf (erc20 w) t x + moved (token inv) (this m) to (netAmount inv) t x.
Proof.
  intros H. cbv zeta.
  destruct H as [H|H]; unfold releaseFunds, refund, validInvoice in H;
    set (s := pay w) in *; set (inv := invoices s id) in *; tx_inv H;
    repeat match goal with
           | E : (_ && _) = true |- _ => apply andb_true_iff in E; destruct E
           | E : (_ || _) = true |- _ => apply orb_true_iff in E
           | E : negb _ = true |- _ => apply negb_true_iff in E
           | E : (_ <? _) = true |- _ => apply Z.ltb_lt in E
           | E : transfer _ _ _ _ _ = Success _ |- _ =>
               apply transfer_success in E;
               destruct E as (? & ? & ? & _ & ?)
           end;
    injection H as <- <-; cbn [pay erc20];
    repeat split; try lia; auto.
Qed.

Lemma releaseFunds_only_issuer (m : Msg) (id : Z) (to : address) (w w' : World)
      (evs : list Event) :
  releaseFunds m id to w = Success (w', evs) ->
  sender m = issuer (invoices (pay w) id) /\
  evs = [InvoiceReleased id to (netAmount (invoices (pay w) id))].
Proof.
  intros H. unfold releaseFunds, validInvoice in H. tx_inv H.
  injection H as <- <-. split; [|reflexivity].
  match goal with E : (sender m =? _) = true |- _ => now apply Z.eqb_eq in E end.
Qed.

Lemma createInvoice_success (m : Msg) (p t : address) (a : Z) (u : string)
      (s s' : State) (id : Z) (evs : list Event) :
  createInvoice m p t a u s = Success (id, s', evs) ->
  id = nextInvoiceId s /\ nextInvoiceId s' = id + 1 /\ id + 1 <= MAX_UINT256 /\
  0 < a <= MAX_UINT256 /\ p <> 0 /\ t <> 0 /\
  feeBps s' = feeBps s /\ feeVault s' = feeVault s /\ owner s' = owner s /\
  invoices s' id =
    {| issuer := sender m; payer := p; token := t; amount := a; netAmount := 0;
       metadataURI := u; paid := false; released := false;
       createdAt := timestamp m |} /\
  (forall i, i <> id -> invoices s' i = invoices s i) /\
  evs = [InvoiceCreated id (sender m) p a t u].
Proof.
  intros H. unfold createInvoice in H. tx_inv H.
  match goal with
  | E : checked_succ _ = Success _ |- _ =>
      unfold checked_succ in E;
      destruct (nextInvoiceId s + 1 <=? MAX_UINT256) eqn:En; [|discriminate E];
      injection E as <-
  end.
  apply Z.leb_le in En.
  repeat match goal with
         | E : negb _ = true |- _ => apply negb_true_iff in E
         | E : (_ <? _) = true |- _ => apply Z.ltb_lt in E
         | E : abi_uint _ _ = Success _ |- _ => apply abi_uint_ok in E
         end.
  injection H as <- <- <-. cbn [nextInvoiceId feeBps feeVault owner invoices].
  rewrite Z.eqb_refl. unfold MAX_UINT256 in *.
  repeat split; try lia; auto.
  intros i Hi. destruct (i =? nextInvoiceId s) eqn:X; [|reflexivity].
  apply Z.eqb_eq in X. contradiction.
Qed.

Lemma on_state_success (r : tx (State * list Event)) (w w' : World)
      (evs : list Event) :
  on_state r w = Success (w', evs) ->
  exists s', r = Success (s', evs) /\ w' = {| pay := s'; erc20 := erc20 w |}.
Proof.
  unfold on_state. destruct r as [[s' e]| |]; cbn; try discriminate.
  intros H. injection H as <- <-. exists s'. split; reflexivity.
Qed.

(** The four entry points that are guarded by [onlyOwner]. *)
Lemma owner_call_success (m : Msg) (s s' : State) (evs : list Event) :
  (exists b, setFeeBps m b s = Success (s', evs)) \/
  (exists v, setFeeVault m v s = Success (s', evs)) \/
  (exists o, transferOwnership m o s = Success (s', evs)) \/
  renounceOwnership m s = Success (s', evs) ->
  sender m = owner s /\
  nextInvoiceId s' = nextInvoiceId s /\ invoices s' = invoices s /\
  (0 <= feeBps s <= 2000 /\ feeVault s <> 0 ->
   0 <= feeBps s' <= 2000 /\ feeVault s' <> 0).
Proof.
  intros [[b H]|[[v H]|[[o H]|H]]];
    unfold setFeeBps, setFeeVault, transferOwnership, renounceOwnership,
           onlyOwner in H;
    tx_inv H; injection H as <- <-; cbn;
    repeat match goal with
           | E : (_ =? _) = true |- _ => apply Z.eqb_eq in E
           | E : (_ <=? _) = true |- _ => apply Z.leb_le in E
           | E : negb (_ =? _) = true |- _ =>
               apply negb_true_iff in E; apply Z.eqb_neq in E
           | E : abi_uint _ _ = Success _ |- _ => apply abi_uint_ok in E
           end;
    repeat split; auto; lia.
Qed.

(** *** The escrow *)

Lemma invoice_ok_net_nonneg (i : Invoice) : invoice_ok i -> 0 <= netAmount i.
Proof.
  intros (H1 & H2 & H3 & H4).
  destruct (paid i) eqn:P; [|rewrite H2; [lia|reflexivity]].
  destruct (released i) eqn:R; [rewrite H3; [lia|reflexivity]|].
  destruct (H4 eq_refl eq_refl). lia.
Qed.

Lemma escrowed_upto_ext (inv inv' : Z -> Invoice) (t : address) (n : nat) :
  (forall i, 1 <= i <= Z.of_nat n -> inv i = inv' i) ->
  escrowed_upto inv t n = escrowed_upto inv' t n.
Proof.
  induction n as [|n IH]; intros H; [reflexivity|].
  cbn [escrowed_upto]. rewrite (H (Z.of_nat (S n))) by lia.
  rewrite IH; [reflexivity|]. intros i Hi. apply H. lia.
Qed.

Lemma escrowed_upto_set (inv : Z -> Invoice) (id : Z) (x : Invoice)
      (t : address) (n : nat) :
  1 <= id <= Z.of_nat n ->
  escrowed_upto (fun i => if i =? id then x else inv i) t n =
  escrowed_upto inv t n - held (inv id) t + held x t.
Proof.
  induction n as [|n IH]; intros H; [lia|].
  cbn [escrowed_upto]. destruct (Z.of_nat (S n) =? id) eqn:E.
  - apply Z.eqb_eq in E. rewrite <- E.
    rewrite (escrowed_upto_ext _ inv t n); [lia|].
    intros i Hi. cbv beta. destruct (i =? Z.of_nat (S n)) eqn:X; [|reflexivity].
    apply Z.eqb_eq in X. lia.
  - apply Z.eqb_neq in E. rewrite IH by lia. lia.
Qed.

Lemma escrowed_upto_member (inv : Z -> Invoice) (t : address) (n : nat) (id : Z) :
  (forall i, 0 <= netAmount (inv i)) ->
  (1 <= id <= Z.of_nat n -> held (inv id) t <= escrowed_upto inv t n) /\
  0 <= escrowed_upto inv t n.
Proof.
  intros Hn. induction n as [|n [IH1 IH2]]; [cbn; lia|].
  cbn [escrowed_upto].
  assert (Hh : 0 <= held (inv (Z.of_nat (S n))) t).
  { unfold held. destruct (_ =? _); [apply Hn|lia]. }
  split; [|lia]. intros Hid.
  destruct (Z.eq_dec id (Z.of_nat (S n))) as [->|Hne]; [lia|].
  specialize (IH1 ltac:(lia)). lia.
Qed.

Lemma escrowed_set_invoice (s : State) (id : Z) (x : Invoice) (t : address) :
  0 < id < nextInvoiceId s ->
  escrowed (set_invoice s id x) t =
  escrowed s t - held (invoices s id) t + held x t.
Proof.
  intros H. unfold escrowed, set_invoice. cbn [invoices nextInvoiceId].
  apply escrowed_upto_set. lia.
Qed.

(** *** The invariant *)

Lemma invariant_deploy (m : Msg) (fv : address) (fb : Z) (s : State)
      (l : Ledger) :
  constructor m fv fb = Success s ->
  (forall t, 0 <= balanceOf l t (this m)) ->
  invariant (this m) {| pay := s; erc20 := l |}.
Proof.
  intros H Hl. unfold constructor in H. tx_inv H. injection H as <-.
  repeat match goal with
         | E : abi_uint _ _ = Success _ |- _ => apply abi_uint_ok in E
         | E : (_ <=? _) = true |- _ => apply Z.leb_le in E
         | E : negb (_ =? _) = true |- _ =>
             apply negb_true_iff in E; apply Z.eqb_neq in E
         end.
  unfold invariant, escrowed. cbn. unfold MAX_UINT256.
  split; [split; [lia|assumption]|]. split; [lia|].
  split; [intros _; unfold invoice_ok; cbn; repeat split; auto; discriminate|].
  split; [reflexivity|]. split; [intros id Hid; lia|exact Hl].
Qed.

Lemma invariant_state_change (self : address) (w : World) (s' : State) :
  invariant self w ->
  0 <= feeBps s' <= 2000 /\ feeVault s' <> 0 ->
  nextInvoiceId s' = nextInvoiceId (pay w) ->
  invoices s' = invoices (pay w) ->
  invariant self {| pay := s'; erc20 := erc20 w |}.
Proof.
  intros (H1 & H2 & H3 & H4 & H5 & H6) Hb Hn Hi.
  unfold invariant, escrowed in *. cbn [pay erc20]. rewrite Hn, Hi.
  split; [exact Hb|]. split; [lia|]. split; [exact H3|].
  split; [exact H4|]. split; [exact H5|exact H6].
Qed.

Lemma invariant_pay_out (self : address) (m : Msg) (id : Z) (to : address)
      (w w' : World) (evs : list Event) :
  invariant self w -> this m = self ->
  releaseFunds m id to w = Success (w', evs) \/
  refund m id to w = Success (w', evs) ->
  invariant self w'.
Proof.
  intros Inv Hself H.
  pose proof Inv as (Hbps & Hnext & Hok & Hout & Hfiled & Hsolv).
  apply pay_out_success in H. cbv zeta in H.
  destruct H as (Hid & Hpaid & Hrel & Hnet & _ & _ & _ & _ & Hpay & Hbal).
  set (inv := invoices (pay w) id) in *.
  unfold invariant. rewrite Hpay. cbn [set_invoice feeBps feeVault nextInvoiceId invoices].
  split; [exact Hbps|]. split; [lia|]. split; [|split; [|split]].
  - intros i. destruct (i =? id) eqn:X; [|apply Hok].
    unfold invoice_ok. cbn [paid released netAmount amount]. rewrite Hpaid.
    repeat split; auto; discriminate.
  - intros i Hi. destruct (i =? id) eqn:X; [|apply Hout; exact Hi].
    apply Z.eqb_eq in X. lia.
  - intros i Hi. destruct (i =? id) eqn:X; [|apply Hfiled; exact Hi].
    apply (Hfiled id Hid).
  - intros t.
    change (escrowed (set_invoice (pay w) id
              {| issuer := issuer inv; payer := payer inv; token := token inv;
                 amount := amount inv; netAmount := 0;
                 metadataURI := metadataURI inv; paid := paid inv;
                 released := true; createdAt := createdAt inv |}) t
            <= balanceOf (erc20 w') t self).
    rewrite escrowed_set_invoice by lia. fold inv.
    rewrite Hbal. specialize (Hsolv t).
    unfold held, moved. cbn [token netAmount]. rewrite Hself.
    destruct (token inv =? t) eqn:Et.
    + apply Z.eqb_eq in Et. subst t. rewrite !Z.eqb_refl. cbn [andb].
      destruct (self =? to); lia.
    + rewrite Z.eqb_sym in Et. rewrite Et. cbn [andb]. lia.
Qed.

Lemma invariant_step (self : address) (w w' : World) :
  invariant self w -> step self w w' -> invariant self w'.
Proof.
  intros Inv St. destruct St as [m c w w' evs Hself Hsender Hexec | w l Hl].
  2:{ destruct Inv as (H1 & H2 & H3 & H4 & H5 & H6).
      unfold invariant. cbn [pay erc20].
      split; [exact H1|]. split; [lia|]. split; [exact H3|].
      split; [exact H4|]. split; [exact H5|].
      intros t. specialize (H6 t). specialize (Hl t). lia. }
  pose proof Inv as (Hbps & Hnext & Hok & Hout & Hfiled & Hsolv).
  destruct c; cbn [exec] in Hexec.
  - (* setFeeBps *)
    apply on_state_success in Hexec. destruct Hexec as (s' & Hr & ->).
    destruct (owner_call_success m (pay w) s' evs) as (_ & Hn & Hi & Hb);
      [left; eexists; exact Hr|].
    apply invariant_state_change; auto.
  - (* setFeeVault *)
    apply on_state_success in Hexec. destruct Hexec as (s' & Hr & ->).
    destruct (owner_call_success m (pay w) s' evs) as (_ & Hn & Hi & Hb);
      [right; left; eexists; exact Hr|].
    apply invariant_state_change; auto.
  - (* createInvoice *)
    destruct (createInvoice m payer0 token0 amount0 metadataURI0 (pay w))
      as [[[id s'] ev]| |] eqn:E; cbn [tx_bind] in Hexec; try discriminate.
    injection Hexec as <- <-. cbn [fst snd].
    apply createInvoice_success in E.
    destruct E as (-> & Hn & Hmax & Ha & Hp & Ht & Hf & Hv & _ & Hinv & Hrest & _).
    unfold invariant. cbn [pay erc20]. rewrite Hf, Hv.
    split; [exact Hbps|]. split; [lia|]. split; [|split; [|split]].
    + intros i. destruct (Z.eq_dec i (nextInvoiceId (pay w))) as [->|Hne].
      * rewrite Hinv. unfold invoice_ok. cbn. repeat split; auto; discriminate.
      * rewrite (Hrest i Hne). apply Hok.
    + intros i Hi. rewrite Hrest by lia. apply Hout. lia.
    + intros i Hi. destruct (Z.eq_dec i (nextInvoiceId (pay w))) as [->|Hne].
      * rewrite Hinv. unfold invoice_filed. cbn. auto.
      * rewrite (Hrest i Hne). apply Hfiled. lia.
    + intros t. unfold escrowed. rewrite Hn.
      replace (Z.to_nat (nextInvoiceId (pay w) + 1 - 1))
        with (S (Z.to_nat (nextInvoiceId (pay w) - 1))) by lia.
      cbn [escrowed_upto].
      replace (Z.of_nat (S (Z.to_nat (nextInvoiceId (pay w) - 1))))
        with (nextInvoiceId (pay w)) by lia.
      rewrite Hinv. unfold held at 1. cbn [token netAmount].
      rewrite (escrowed_upto_ext _ (invoices (pay w))).
      * specialize (Hsolv t). unfold escrowed in Hsolv.
        destruct (token0 =? t); lia.
      * intros i Hi. apply Hrest. lia.
  - (* payInvoice *)
    apply payInvoice_success in Hexec; [|lia]. cbv zeta in Hexec.
    destruct Hexec as (Hid & Hpaid & Hsnd & Hamt & Hmul & Hv & Hpay & _ & Hbal).
    set (inv := invoices (pay w) id) in *.
    destruct (fee_bounds (amount inv) (feeBps (pay w)) Hamt (proj1 Hbps))
      as (Hf0 & Hf5 & Hnet).
    set (fee := amount inv * feeBps (pay w) / 10000) in *.
    destruct (Hok id) as (Hr1 & Hr2 & Hr3 & Hr4). fold inv in Hr1, Hr2, Hr3, Hr4.
    unfold invariant. rewrite Hpay.
    cbn [set_invoice feeBps feeVault nextInvoiceId invoices].
    split; [exact Hbps|]. split; [lia|]. split; [|split; [|split]].
    + intros i. destruct (i =? id) eqn:X; [|apply Hok].
      unfold invoice_ok. cbn [paid released netAmount amount].
      destruct (released inv) eqn:R.
      * rewrite Hr1 in Hpaid; [discriminate|reflexivity].
      * repeat split; try discriminate; auto; lia.
    + intros i Hi. destruct (i =? id) eqn:X; [|apply Hout; exact Hi].
      apply Z.eqb_eq in X. lia.
    + intros i Hi. destruct (i =? id) eqn:X; [|apply Hfiled; exact Hi].
      apply (Hfiled id Hid).
    + intros t.
      change (escrowed (set_invoice (pay w) id
                {| issuer := issuer inv; payer := payer inv; token := token inv;
                   amount := amount inv; netAmount := amount inv - fee;
                   metadataURI := metadataURI inv; paid := true;
                   released := released inv; createdAt := createdAt inv |}) t
              <= balanceOf (erc20 w') t self).
      rewrite escrowed_set_invoice by lia. fold inv.
      rewrite Hbal. specialize (Hsolv t).
      unfold held, moved. cbn [token netAmount]. rewrite (Hr2 Hpaid).
      rewrite Hself.
      destruct (token inv =? t) eqn:Et.
      * apply Z.eqb_eq in Et. subst t. rewrite !Z.eqb_refl. cbn [andb].
        destruct (self =? sender m) eqn:Es; [apply Z.eqb_eq in Es; congruence|].
        destruct (self =? feeVault (pay w)); lia.
      * rewrite Z.eqb_sym in Et. rewrite Et. cbn [andb]. lia.
  - (* releaseFunds *)
    eapply invariant_pay_out; eauto.
  - (* refund *)
    eapply invariant_pay_out; eauto.
  - (* transferOwnership *)
    apply on_state_success in Hexec. destruct Hexec as (s' & Hr & ->).
    destruct (owner_call_success m (pay w) s' evs) as (_ & Hn & Hi & Hb);
      [right; right; left; eexists; exact Hr|].
    apply invariant_state_change; auto.
  - (* renounceOwnership *)
    apply on_state_success in Hexec. destruct Hexec as (s' & Hr & ->).
    destruct (owner_call_success m (pay w) s' evs) as (_ & Hn & Hi & Hb);
      [right; right; right; exact Hr|].
    apply invariant_state_change; auto.
Qed.

Lemma reachable_invariant (self : address) (w : World) :
  reachable self w -> invariant self w.
Proof.
  induction 1 as [m fv fb s l Hself Hc Hl | w w' _ IH St].
  - subst self. eapply invariant_deploy; eassumption.
  - eapply invariant_step; eassumption.
Qed.

(** *** Calls that go through *)

Ltac tx_pass :=
  repeat match goal with
         | |- context [require ?c ?r] =>
             let E := fresh "E" in
             assert (E : c = true) by (first [assumption | lia]);
             rewrite E; cbn [require tx_bind]
         | |- context [abi_uint ?b ?x] =>
             let E := fresh "E" in
             assert (E : abi_uint b x = Success tt)
               by (unfold abi_uint;
                   replace ((0 <=? x) && (x <? 2 ^ b)) with true
                     by (symmetry; unfold MAX_UINT256 in *; lia);
                   reflexivity);
             rewrite E; cbn [tx_bind]
         end.

Lemma transfer_runs (l : Ledger) (t from to : address) (amt : Z) :
  from <> 0 -> to <> 0 -> amt <= balanceOf l t from ->
  exists l', transfer l t from to amt = Success l'.
Proof.
  intros Hf Ht Hb. unfold transfer. tx_pass. eexists. reflexivity.
Qed.

Lemma pay_out_runs (m : Msg) (id : Z) (to : address) (w : World) :
  let inv := invoices (pay w) id in
  0 < id < nextInvoiceId (pay w) -> nextInvoiceId (pay w) <= MAX_UINT256 ->
  0 < to < 2 ^ 160 -> this m <> 0 ->
  paid inv = true -> released inv = false ->
  0 < netAmount inv <= balanceOf (erc20 w) (token inv) (this m) ->
  (sender m = issuer inv ->
   exists w', releaseFunds m id to w =
              Success (w', [InvoiceReleased id to (netAmount inv)])) /\
  (sender m = issuer inv \/ sender m = owner (pay w) ->
   exists w', refund m id to w =
              Success (w', [InvoiceRefunded id to (netAmount inv)])).
Proof.
  intros inv Hid Hmax Hto Hthis Hpaid Hrel Hnet.
  destruct (transfer_runs (erc20 w) (token inv) (this m) to (netAmount inv))
    as [l Hl]; [assumption|lia|lia|].
  split; intros Hs; unfold releaseFunds, refund, validInvoice, abi_address;
    fold inv; rewrite Hpaid, Hrel; cbn [negb]; tx_pass;
    rewrite Hl; cbn [tx_bind]; eexists; reflexivity.
Qed.

Lemma escrowed_nonneg (self : address) (w : World) (t : address) :
  invariant self w -> 0 <= escrowed (pay w) t.
Proof.
  intros (_ & _ & Hok & _). unfold escrowed.
  apply (escrowed_upto_member _ t _ 0).
  intros i. apply invoice_ok_net_nonneg, Hok.
Qed.

Lemma held_backed (self : address) (w : World) (id : Z) :
  invariant self w -> 0 < id < nextInvoiceId (pay w) ->
  netAmount (invoices (pay w) id)
  <= balanceOf (erc20 w) (token (invoices (pay w) id)) self.
Proof.
  intros Inv Hid. pose proof Inv as (_ & _ & Hok & _ & _ & Hsolv).
  specialize (Hsolv (token (invoices (pay w) id))).
  assert (H : held (invoices (pay w) id) (token (invoices (pay w) id))
              <= escrowed (pay w) (token (invoices (pay w) id))).
  { unfold escrowed. apply escrowed_upto_member; [|lia].
    intros i. apply invoice_ok_net_nonneg, Hok. }
  unfold held in H. rewrite Z.eqb_refl in H. lia.
Qed.

Lemma transferFrom_runs (l : Ledger) (t spender from to : address) (amt : Z) :
  spender <> 0 -> from <> 0 -> to <> 0 -> amt <= balanceOf l t from ->
  amt <= allowance l t from spender ->
  exists l', transferFrom l t spender from to amt = Success l'.
Proof.
  intros Hsp Hf Ht Hb Ha. unfold transferFrom.
  destruct (allowance l t from spender =? MAX_UINT256); cbn [tx_bind].
  - apply transfer_runs; assumption.
  - tx_pass. apply transfer_runs; assumption.
Qed.

Lemma payInvoice_runs (self : address) (m : Msg) (id : Z) (w : World) :
  let inv := invoices (pay w) id in
  invariant self w -> this m = self -> self <> 0 -> sender m <> self ->
  0 < id < nextInvoiceId (pay w) -> paid inv = false -> sender m = payer inv ->
  amount inv <= balanceOf (erc20 w) (token inv) (sender m) ->
  amount inv <= allowance (erc20 w) (token inv) (sender m) self ->
  amount inv * feeBps (pay w) <= MAX_UINT256 ->
  exists w', payInvoice m id w =
             Success (w', [InvoicePaid id (sender m) (amount inv)
                             (amount inv * feeBps (pay w) / 10000)]).
Proof.
  intros inv Inv Hself Hnz Hsnd Hid Hpaid Hpayer Hbal Hall Hmul.
  pose proof Inv as ((Hbps & Hv) & Hnext & _ & _ & Hfiled & Hsolv).
  destruct (Hfiled id Hid) as (Ha & Hp & _). fold inv in Ha, Hp.
  destruct (transferFrom_runs (erc20 w) (token inv) self (sender m) self
              (amount inv)) as [l1 Hl1]; try assumption; [congruence|].
  pose proof (transferFrom_success _ _ _ _ _ _ _ Hl1) as Hm.
  unfold payInvoice, validInvoice. fold inv. rewrite Hpaid, Hself. cbn [negb].
  tx_pass. rewrite Hl1. cbn [tx_bind].
  unfold checked_mul.
  replace (amount inv * feeBps (pay w) <=? MAX_UINT256) with true
    by (symmetry; lia).
  cbn [tx_bind].
  destruct (fee_bounds (amount inv) (feeBps (pay w)) (proj1 Ha) Hbps)
    as (Hf0 & Hf5 & Hn).
  unfold checked_sub.
  replace (amount inv * feeBps (pay w) / 10000 <=? amount inv) with true
    by (symmetry; lia).
  cbn [tx_bind].
  destruct (0 <? amount inv * feeBps (pay w) / 10000) eqn:Efee.
  - tx_pass.
    destruct (transfer_runs l1 (token inv) self (feeVault (pay w))
                (amount inv * feeBps (pay w) / 10000)) as [l2 Hl2];
      try assumption.
    + destruct Hm as (_ & _ & _ & _ & Hm). rewrite Hm. unfold moved.
      rewrite !Z.eqb_refl. cbn [andb].
      destruct (self =? sender m) eqn:Es; [apply Z.eqb_eq in Es; congruence|].
      pose proof (escrowed_nonneg self w (token inv) Inv).
      specialize (Hsolv (token inv)). lia.
    + rewrite Hl2. cbn [tx_bind]. eexists. reflexivity.
  - cbn [tx_bind]. eexists. reflexivity.
Qed.

(** *** What a step leaves alone *)

Lemma same_terms_refl (i : Invoice) : same_terms i i.
Proof. repeat split. Qed.

Lemma invoice_advances_refl (i : Invoice) : invoice_advances i i.
Proof. split; [apply same_terms_refl|split; auto]. Qed.

Lemma invoice_advances_trans (i j k : Invoice) :
  invoice_advances i j -> invoice_advances j k -> invoice_advances i k.
Proof.
  intros ((A1 & A2 & A3 & A4 & A5 & A6) & Ap & Ar)
         ((B1 & B2 & B3 & B4 & B5 & B6) & Bp & Br).
  repeat split; try congruence; auto.
Qed.

Lemma step_frame (self : address) (w w' : World) :
  step self w w' ->
  nextInvoiceId (pay w) <= nextInvoiceId (pay w') /\
  forall id, 0 < id < nextInvoiceId (pay w) ->
             invoice_advances (invoices (pay w) id) (invoices (pay w') id).
Proof.
  intros St. destruct St as [m c w w' evs Hself Hsender Hexec | w l Hl];
    [|split; [cbn; lia|intros; apply invoice_advances_refl]].
  destruct c; cbn [exec] in Hexec.
  1,2,7,8:
    apply on_state_success in Hexec; destruct Hexec as (s' & Hr & ->);
    destruct (owner_call_success m (pay w) s' evs) as (_ & Hn & Hi & _);
    [solve [left; eexists; exact Hr | right; left; eexists; exact Hr
           | right; right; left; eexists; exact Hr
           | right; right; right; exact Hr]|];
    cbn [pay]; rewrite Hn, Hi;
    split; [lia|intros; apply invoice_advances_refl].
  - destruct (createInvoice m payer0 token0 amount0 metadataURI0 (pay w))
      as [[[id s'] ev]| |] eqn:E; cbn [tx_bind] in Hexec; try discriminate.
    injection Hexec as <- <-. cbn [fst snd pay].
    apply createInvoice_success in E.
    destruct E as (-> & Hn & _ & _ & _ & _ & _ & _ & _ & _ & Hrest & _).
    split; [lia|]. intros i Hi. rewrite Hrest by lia.
    apply invoice_advances_refl.
  - assert (Hpay : exists x, pay w' = set_invoice (pay w) id x /\
                             invoice_advances (invoices (pay w) id) x).
    { unfold payInvoice in Hexec. tx_inv Hexec. injection Hexec as <- _.
      eexists. split; [reflexivity|].
      unfold invoice_advances, same_terms. cbn. repeat split; auto. }
    destruct Hpay as (x & -> & Hx). cbn [set_invoice nextInvoiceId invoices].
    split; [lia|]. intros i Hi. destruct (i =? id) eqn:X.
    + apply Z.eqb_eq in X. subst i. exact Hx.
    + apply invoice_advances_refl.
  - pose proof (pay_out_success m id to w w' evs (or_introl Hexec)) as H.
    cbv zeta in H. destruct H as (_ & _ & _ & _ & _ & _ & _ & _ & -> & _).
    cbn [set_invoice nextInvoiceId invoices].
    split; [lia|]. intros i Hi. destruct (i =? id) eqn:X.
    + apply Z.eqb_eq in X. subst i.
      unfold invoice_advances, same_terms. cbn. repeat split; auto.
    + apply invoice_advances_refl.
  - pose proof (pay_out_success m id to w w' evs (or_intror Hexec)) as H.
    cbv zeta in H. destruct H as (_ & _ & _ & _ & _ & _ & _ & _ & -> & _).
    cbn [set_invoice nextInvoiceId invoices].
    split; [lia|]. intros i Hi. destruct (i =? id) eqn:X.
    + apply Z.eqb_eq in X. subst i.
      unfold invoice_advances, same_terms. cbn. repeat split; auto.
    + apply invoice_advances_refl.
Qed.

Lemma steps_frame (self : address) (w w' : World) :
  steps self w w' ->
  nextInvoiceId (pay w) <= nextInvoiceId (pay w') /\
  forall id, 0 < id < nextInvoiceId (pay w) ->
             invoice_advances (invoices (pay w) id) (invoices (pay w') id).
Proof.
  induction 1 as [w | w w' w'' _ [IHn IHi] St].
  - split; [lia|intros; apply invoice_advances_refl].
  - destruct (step_frame self w' w'' St) as [Hn Hi].
    split; [lia|]. intros id Hid.
    eapply invoice_advances_trans; [apply IHi; exact Hid|apply Hi; lia].
Qed.

Lemma steps_reachable (self : address) (w w' : World) :
  reachable self w -> steps self w w' -> reachable self w'.
Proof.
  intros R. induction 1 as [w | w w' w'' _ IH St]; [exact R|].
  eapply reach_step; [apply IH; exact R|exact St].
Qed.

Lemma settled_inside (self : address) (w : World) (id : Z) :
  invariant self w ->
  paid (invoices (pay w) id) = true \/ released (invoices (pay w) id) = true ->
  0 < id < nextInvoiceId (pay w).
Proof.
  intros (_ & Hnext & _ & Hout & _) H.
  destruct (Z_lt_le_dec 0 id) as [Hl|Hl];
    [destruct (Z_lt_le_dec id (nextInvoiceId (pay w))) as [Hu|Hu]; [lia|]|];
    rewrite Hout in H by lia; cbn in H; destruct H; discriminate.
Qed.

(** *** Sample worlds *)

Lemma reachable_deployed : reachable PaySamples.self PaySamples.deployed.
Proof.
  apply (reach_deploy PaySamples.self (PaySamples.from PaySamples.deployer)
           PaySamples.vault 100); [reflexivity|reflexivity|].
  intros t. cbn. destruct (_ && _); lia.
Qed.

Lemma reachable_invoiced : reachable PaySamples.self PaySamples.invoiced.
Proof.
  eapply reach_step; [exact reachable_deployed|].
  eapply (step_exec _ (PaySamples.from PaySamples.issuer_) PaySamples.create);
    [reflexivity|discriminate|reflexivity].
Qed.

Lemma reachable_paid_up : reachable PaySamples.self PaySamples.paid_up.
Proof.
  eapply reach_step; [exact reachable_invoiced|].
  eapply (step_exec _ (PaySamples.from PaySamples.payer_) (CallPayInvoice 1));
    [reflexivity|discriminate|reflexivity].
Qed.

Lemma reachable_settled : reachable PaySamples.self PaySamples.settled.
Proof.
  eapply reach_step; [exact reachable_paid_up|].
  eapply (step_exec _ (PaySamples.from PaySamples.issuer_)
            (CallReleaseFunds 1 PaySamples.receiver));
    [reflexivity|discriminate|reflexivity].
Qed.

(** *** Solvency and the fee *)

(** X1. In every world that can be reached after deployment, and for every
    token, the contract holds at least the sum of the net amounts of its
    invoices in that token: what is owed to the issuers is backed. *)
Theorem escrow_is_backed (self : address) (w : World) (t : address) :
  reachable self w ->
  0 <= escrowed (pay w) t <= balanceOf (erc20 w) t self.
Proof.
  intros R. apply reachable_invariant in R. split.
  - eapply escrowed_nonneg; exact R.
  - destruct R as (_ & _ & _ & _ & _ & H). apply H.
Qed.

Lemma escrow_is_backed_witness :
  0 <= escrowed (pay PaySamples.paid_up) PaySamples.usdc
    <= balanceOf (erc20 PaySamples.paid_up) PaySamples.usdc PaySamples.self.
Proof.
  apply (escrow_is_backed PaySamples.self PaySamples.paid_up PaySamples.usdc).
  exact reachable_paid_up.
Defined.

(** X2. The fee stays within the cap of 20% and the fee vault is never the
    zero address, whatever the owner does after deployment. *)
Theorem fee_settings_stay_legal (self : address) (w : World) :
  reachable self w ->
  0 <= feeBps (pay w) <= 2000 /\ feeVault (pay w) <> 0.
Proof.
  intros R. apply reachable_invariant in R. apply R.
Qed.

Lemma fee_settings_stay_legal_witness :
  0 <= feeBps (pay PaySamples.settled) <= 2000 /\
  feeVault (pay PaySamples.settled) <> 0.
Proof.
  apply (fee_settings_stay_legal PaySamples.self PaySamples.settled).
  exact reachable_settled.
Defined.

(** X3. [payInvoice] takes the gross amount from the payer, forwards the fee
    [gross * feeBps / 10000] (rounded down, at most a fifth of the gross
    amount) to the fee vault and keeps the rest, which it records as the
    net amount; no other balance changes. *)
Theorem payInvoice_splits_payment (self : address) (m : Msg) (id : Z)
        (w w' : World) (evs : list Event) :
  reachable self w -> this m = self ->
  payInvoice m id w = Success (w', evs) ->
  sender m <> self -> feeVault (pay w) <> self ->
  feeVault (pay w) <> sender m ->
  let inv := invoices (pay w) id in
  let fee := amount inv * feeBps (pay w) / 10000 in
  let bal := balanceOf (erc20 w) (token inv) in
  let bal' := balanceOf (erc20 w') (token inv) in
  evs = [InvoicePaid id (sender m) (amount inv) fee] /\
  0 <= fee /\ 5 * fee <= amount inv /\
  netAmount (invoices (pay w') id) = amount inv - fee /\
  bal' (sender m) = bal (sender m) - amount inv /\
  bal' (feeVault (pay w)) = bal (feeVault (pay w)) + fee /\
  bal' self = bal self + (amount inv - fee) /\
  forall t a,
    t <> token inv \/ (a <> sender m /\ a <> feeVault (pay w) /\ a <> self) ->
    balanceOf (erc20 w') t a = balanceOf (erc20 w) t a.
Proof.
  intros R Hself H Hs Hv Hvs. cbv zeta.
  apply reachable_invariant in R. destruct R as ((Hbps & _) & _).
  apply payInvoice_success in H; [|lia]. cbv zeta in H.
  destruct H as (Hid & _ & _ & Hamt & _ & _ & Hpay & Hev & Hbal).
  destruct (fee_bounds _ _ Hamt Hbps) as (Hf0 & Hf5 & _).
  rewrite Hself in Hbal.
  split; [exact Hev|]. split; [exact Hf0|]. split; [exact Hf5|].
  split; [rewrite Hpay; cbn; rewrite Z.eqb_refl; reflexivity|].
  assert (E1 : (self =? sender m) = false) by lia.
  assert (E2 : (sender m =? self) = false) by lia.
  assert (E3 : (feeVault (pay w) =? self) = false) by lia.
  assert (E4 : (feeVault (pay w) =? sender m) = false) by lia.
  assert (E5 : (sender m =? feeVault (pay w)) = false) by lia.
  assert (E6 : (self =? feeVault (pay w)) = false) by lia.
  repeat split.
  - rewrite Hbal. unfold moved.
    rewrite !Z.eqb_refl, ?E1, ?E2, ?E3, ?E4, ?E5, ?E6. cbn [andb]. lia.
  - rewrite Hbal. unfold moved.
    rewrite !Z.eqb_refl, ?E1, ?E2, ?E3, ?E4, ?E5, ?E6. cbn [andb]. lia.
  - rewrite Hbal. unfold moved.
    rewrite !Z.eqb_refl, ?E1, ?E2, ?E3, ?E4, ?E5, ?E6. cbn [andb]. lia.
  - intros t a Hta. rewrite Hbal. unfold moved.
    destruct (t =? token (invoices (pay w) id)) eqn:Et; cbn [andb]; [|lia].
    destruct Hta as [Hta|(Ha1 & Ha2 & Ha3)]; [lia|].
    replace (a =? sender m) with false by lia.
    replace (a =? self) with false by lia.
    replace (a =? feeVault (pay w)) with false by lia. lia.
Qed.

Lemma payInvoice_splits_payment_witness :
  let bal := balanceOf (erc20 PaySamples.invoiced) PaySamples.usdc in
  let bal' := balanceOf (erc20 PaySamples.paid_up) PaySamples.usdc in
  netAmount (invoices (pay PaySamples.paid_up) 1) = 99 /\
  bal' PaySamples.payer_ = bal PaySamples.payer_ - 100 /\
  bal' PaySamples.vault = bal PaySamples.vault + 1 /\
  bal' PaySamples.self = bal PaySamples.self + 99.
Proof.
  intros bal bal'.
  destruct (payInvoice_splits_payment PaySamples.self
              (PaySamples.from PaySamples.payer_) 1
              PaySamples.invoiced PaySamples.paid_up
              [InvoicePaid 1 PaySamples.payer_ 100 1])
    as (_ & _ & _ & H1 & H2 & H3 & H4 & _);
    [exact reachable_invoiced|reflexivity|reflexivity
    |discriminate|discriminate|discriminate|].
  split; [exact H1|]. split; [exact H2|]. split; [exact H3|exact H4].
Defined.

(** *** Guards that never fire *)

Lemma tx_bind_assoc {A B C} (r : tx A) (k : A -> tx B) (k' : B -> tx C) :
  tx_bind (tx_bind r k) k' = tx_bind r (fun x => tx_bind (k x) k').
Proof. destruct r; reflexivity. Qed.

Ltac tx_rev H :=
  repeat match type of H with
         | tx_bind (require ?c _) _ = Revert _ =>
             let E := fresh "E" in
             destruct c eqn:E; cbn [require tx_bind] in H
         | tx_bind (if ?c then _ else _) _ = Revert _ =>
             let E := fresh "E" in
             destruct c eqn:E
         | tx_bind (tx_bind _ _) _ = Revert _ => rewrite tx_bind_assoc in H
         | tx_bind ?r _ = Revert _ =>
             let E := fresh "E" in
             destruct r eqn:E; cbn [tx_bind] in H
         end.

Lemma transfer_reverts (l : Ledger) (t from to : address) (amt : Z)
      (r : string) :
  transfer l t from to amt = Revert r -> In r erc20_reasons.
Proof.
  unfold transfer, erc20_reasons. intros H. tx_rev H;
    try discriminate H; injection H as <-; cbn; auto 10.
Qed.

Lemma transferFrom_reverts (l : Ledger) (t spender from to : address)
      (amt : Z) (r : string) :
  transferFrom l t spender from to amt = Revert r -> In r erc20_reasons.
Proof.
  unfold transferFrom. intros H.
  destruct (allowance l t from spender =? MAX_UINT256); cbn [tx_bind] in H.
  - eapply transfer_reverts; exact H.
  - rewrite !tx_bind_assoc in H. tx_rev H;
      try (eapply transfer_reverts; exact H);
      injection H as <-; cbn; auto 10.
Qed.

Lemma abi_uint_reverts (b x : Z) (r : string) :
  abi_uint b x = Revert r -> r = EmptyString.
Proof.
  unfold abi_uint. destruct (_ && _); [discriminate|]. intros H.
  injection H as <-. reflexivity.
Qed.

Ltac not_erc20 H :=
  unfold erc20_reasons in H; cbn [In] in H;
  repeat (destruct H as [H|H]; [discriminate H|]); contradiction.

(** Closes the cases in which a call reverts with another reason. *)
Ltac other_reason H :=
  try discriminate H;
  try match goal with
      | E : checked_mul ?a ?b = Revert _ |- _ =>
          unfold checked_mul in E; destruct (a * b <=? MAX_UINT256);
          discriminate E
      | E : checked_sub ?a ?b = Revert _ |- _ =>
          unfold checked_sub in E; destruct (b <=? a); discriminate E
      | E : abi_uint _ _ = Revert ?s |- _ =>
          apply abi_uint_reverts in E; subst s; discriminate H
      | E : transferFrom _ _ _ _ _ _ = Revert ?s |- _ =>
          apply transferFrom_reverts in E; injection H as H; subst s;
          not_erc20 E
      | E : transfer _ _ _ _ _ = Revert ?s |- _ =>
          apply transfer_reverts in E; injection H as H; subst s;
          not_erc20 E
      end.

(** X4. In a reachable world three of the [require]s cannot fail:
    [payInvoice] never reverts with "invalid amount" or "no fee vault", and
    neither [releaseFunds] nor [refund] reverts with "no funds". *)
Theorem guards_that_never_fire (self : address) (w : World) (m : Msg)
        (id : Z) (to : address) :
  reachable self w ->
  payInvoice m id w <> Revert "invalid amount" /\
  payInvoice m id w <> Revert "no fee vault" /\
  releaseFunds m id to w <> Revert "no funds" /\
  refund m id to w <> Revert "no funds".
Proof.
  intros R. apply reachable_invariant in R.
  destruct R as ((Hbps & Hv) & Hnext & Hok & _ & Hfiled & _).
  assert (Hnet : forall i, 0 < i < nextInvoiceId (pay w) ->
                 paid (invoices (pay w) i) = true ->
                 negb (released (invoices (pay w) i)) = true ->
                 (0 <? netAmount (invoices (pay w) i)) = false -> False).
  { intros i Hi Hp Hr Hn. apply negb_true_iff in Hr.
    destruct (Hok i) as (_ & _ & _ & H4). specialize (H4 Hp Hr). lia. }
  repeat split; intros H.
  - unfold payInvoice, validInvoice in H. tx_rev H; other_reason H.
    destruct (Hfiled id) as (Ha & _); lia.
  - unfold payInvoice, validInvoice in H. tx_rev H; other_reason H.
    match goal with
    | E : negb (feeVault _ =? 0) = false |- _ =>
        apply negb_false_iff, Z.eqb_eq in E; contradiction
    end.
  - unfold releaseFunds, validInvoice, abi_address in H.
    tx_rev H; other_reason H. eapply Hnet; eauto. lia.
  - unfold refund, validInvoice, abi_address in H.
    tx_rev H; other_reason H. eapply Hnet; eauto. lia.
Qed.

Lemma guards_that_never_fire_witness :
  payInvoice (PaySamples.from PaySamples.payer_) 1 PaySamples.paid_up
    <> Revert "invalid amount" /\
  payInvoice (PaySamples.from PaySamples.payer_) 1 PaySamples.paid_up
    <> Revert "no fee vault" /\
  releaseFunds (PaySamples.from PaySamples.payer_) 1 PaySamples.receiver
    PaySamples.paid_up <> Revert "no funds" /\
  refund (PaySamples.from PaySamples.payer_) 1 PaySamples.receiver
    PaySamples.paid_up <> Revert "no funds".
Proof.
  apply (guards_that_never_fire PaySamples.self). exact reachable_paid_up.
Defined.

(** *** Calls that succeed *)

(** X5. Funds are never stuck: in a reachable world the issuer of an
    invoice that is paid and not yet released can release it to any address
    but zero, and the call succeeds and pays the whole net amount. *)
Theorem paid_invoice_can_be_released (self : address) (w : World) (m : Msg)
        (id : Z) (to : address) :
  reachable self w -> self <> 0 -> this m = self ->
  paid (invoices (pay w) id) = true ->
  released (invoices (pay w) id) = false ->
  sender m = issuer (invoices (pay w) id) ->
  0 < to < 2 ^ 160 -> to <> self ->
  let inv := invoices (pay w) id in
  exists w',
    releaseFunds m id to w
      = Success (w', [InvoiceReleased id to (netAmount inv)]) /\
    0 < netAmount inv /\
    released (invoices (pay w') id) = true /\
    balanceOf (erc20 w') (token inv) to
      = balanceOf (erc20 w) (token inv) to + netAmount inv.
Proof.
  intros R Hnz Hself Hpaid Hrel Hs Hto Hne inv.
  apply reachable_invariant in R.
  pose proof (settled_inside self w id R (or_introl Hpaid)) as Hid.
  pose proof (held_backed self w id R Hid) as Hb. fold inv in Hb.
  pose proof R as (_ & Hnext & Hok & _).
  destruct (Hok id) as (_ & _ & _ & H4). specialize (H4 Hpaid Hrel).
  fold inv in H4.
  destruct (pay_out_runs m id to w) as [Hrun _]; try assumption;
    try lia; try (rewrite Hself; assumption).
  { rewrite Hself. fold inv. lia. }
  destruct (Hrun Hs) as [w' Hw']. exists w'. fold inv in Hw'.
  split; [exact Hw'|]. split; [lia|].
  pose proof (pay_out_success m id to w w' _ (or_introl Hw')) as H.
  cbv zeta in H. destruct H as (_ & _ & _ & _ & _ & _ & _ & _ & Hpay & Hbal).
  split.
  - rewrite Hpay. cbn. rewrite Z.eqb_refl. reflexivity.
  - rewrite Hbal. fold inv. unfold moved. rewrite !Z.eqb_refl, Hself.
    replace (to =? self) with false by lia. cbn [andb]. lia.
Qed.

Lemma paid_invoice_can_be_released_witness :
  exists w',
    releaseFunds (PaySamples.from PaySamples.issuer_) 1 PaySamples.receiver
      PaySamples.paid_up
      = Success (w', [InvoiceReleased 1 PaySamples.receiver 99]) /\
    0 < 99 /\
    released (invoices (pay w') 1) = true /\
    balanceOf (erc20 w') PaySamples.usdc PaySamples.receiver = 0 + 99.
Proof.
  apply (paid_invoice_can_be_released PaySamples.self PaySamples.paid_up
           (PaySamples.from PaySamples.issuer_) 1 PaySamples.receiver);
    [exact reachable_paid_up|discriminate|reflexivity|reflexivity|reflexivity
    |reflexivity|vm_compute; split; reflexivity|discriminate].
Defined.

(** X6. The payer of an unpaid invoice can pay it: with the gross amount in
    balance and in allowance, and a fee product within [uint256],
    [payInvoice] succeeds. *)
Theorem payer_can_pay (self : address) (w : World) (m : Msg) (id : Z) :
  reachable self w -> self <> 0 -> this m = self -> sender m <> self ->
  0 < id < nextInvoiceId (pay w) ->
  let inv := invoices (pay w) id in
  paid inv = false -> sender m = payer inv ->
  amount inv <= balanceOf (erc20 w) (token inv) (sender m) ->
  amount inv <= allowance (erc20 w) (token inv) (sender m) self ->
  amount inv * feeBps (pay w) <= MAX_UINT256 ->
  exists w',
    payInvoice m id w
      = Success (w', [InvoicePaid id (sender m) (amount inv)
                        (amount inv * feeBps (pay w) / 10000)]) /\
    paid (invoices (pay w') id) = true.
Proof.
  intros R Hnz Hself Hs Hid inv Hpaid Hp Hb Ha Hm.
  apply reachable_invariant in R.
  destruct (payInvoice_runs self m id w) as [w' Hw']; try assumption.
  exists w'. split; [exact Hw'|].
  destruct R as ((Hbps & _) & _).
  apply payInvoice_success in Hw'; [|lia]. cbv zeta in Hw'.
  destruct Hw' as (_ & _ & _ & _ & _ & _ & Hpay & _).
  rewrite Hpay. cbn. rewrite Z.eqb_refl. reflexivity.
Qed.

Lemma payer_can_pay_witness :
  exists w',
    payInvoice (PaySamples.from PaySamples.payer_) 1 PaySamples.invoiced
      = Success (w', [InvoicePaid 1 PaySamples.payer_ 100 1]) /\
    paid (invoices (pay w') 1) = true.
Proof.
  apply (payer_can_pay PaySamples.self PaySamples.invoiced
           (PaySamples.from PaySamples.payer_) 1);
    [exact reachable_invoiced|discriminate|reflexivity|discriminate
    |vm_compute; split; reflexivity|reflexivity|reflexivity
    |vm_compute; discriminate|vm_compute; discriminate
    |vm_compute; discriminate].
Defined.

(** *** The life of an invoice *)

Lemma step_paid_up_settled : step PaySamples.self PaySamples.paid_up PaySamples.settled.
Proof.
  apply (step_exec _ (PaySamples.from PaySamples.issuer_)
           (CallReleaseFunds 1 PaySamples.receiver) PaySamples.paid_up
           PaySamples.settled [InvoiceReleased 1 PaySamples.receiver 99]);
    [reflexivity|discriminate|reflexivity].
Qed.

Lemma step_invoiced_paid_up : step PaySamples.self PaySamples.invoiced PaySamples.paid_up.
Proof.
  apply (step_exec _ (PaySamples.from PaySamples.payer_) (CallPayInvoice 1)
           PaySamples.invoiced PaySamples.paid_up
           [InvoicePaid 1 PaySamples.payer_ 100 1]);
    [reflexivity|discriminate|reflexivity].
Qed.

Lemma steps_paid_up_settled : steps PaySamples.self PaySamples.paid_up PaySamples.settled.
Proof.
  apply (steps_step _ _ PaySamples.paid_up); [apply steps_refl|].
  exact step_paid_up_settled.
Qed.

Lemma steps_invoiced_settled : steps PaySamples.self PaySamples.invoiced PaySamples.settled.
Proof.
  apply (steps_step _ _ PaySamples.paid_up); [|exact step_paid_up_settled].
  apply (steps_step _ _ PaySamples.invoiced); [apply steps_refl|].
  exact step_invoiced_paid_up.
Qed.

(** X7. An invoice is paid at most once: once it is paid it stays paid
    whatever happens, and every later [payInvoice] for it reverts with
    "already paid". *)
Theorem invoice_is_paid_once (self : address) (w w' : World) (id : Z) :
  reachable self w -> steps self w w' ->
  paid (invoices (pay w) id) = true ->
  paid (invoices (pay w') id) = true /\
  forall m, payInvoice m id w' = Revert "already paid".
Proof.
  intros R St Hpaid.
  pose proof (reachable_invariant self w R) as Inv.
  pose proof (settled_inside self w id Inv (or_introl Hpaid)) as Hid.
  destruct (steps_frame self w w' St) as [Hn Hadv].
  destruct (Hadv id Hid) as (_ & Hp & _). specialize (Hp Hpaid).
  split; [exact Hp|]. intros m.
  pose proof (reachable_invariant self w' (steps_reachable self w w' R St))
    as (_ & Hnext & _).
  unfold payInvoice, validInvoice. rewrite Hp. cbn [negb]. tx_pass.
  reflexivity.
Qed.

Lemma invoice_is_paid_once_witness :
  paid (invoices (pay PaySamples.settled) 1) = true /\
  forall m, payInvoice m 1 PaySamples.settled = Revert "already paid".
Proof.
  apply (invoice_is_paid_once PaySamples.self PaySamples.paid_up
           PaySamples.settled 1);
    [exact reachable_paid_up|exact steps_paid_up_settled|reflexivity].
Defined.

(** X8. The net amount leaves the contract at most once: an invoice that was
    released or refunded stays so, it holds nothing any more, and every
    later [releaseFunds] and [refund] for it reverts with
    "already released". *)
Theorem invoice_is_paid_out_once (self : address) (w w' : World) (id : Z) :
  reachable self w -> steps self w w' ->
  released (invoices (pay w) id) = true ->
  released (invoices (pay w') id) = true /\
  netAmount (invoices (pay w') id) = 0 /\
  forall m to, 0 <= to < 2 ^ 160 ->
    releaseFunds m id to w' = Revert "already released" /\
    refund m id to w' = Revert "already released".
Proof.
  intros R St Hrel.
  pose proof (reachable_invariant self w R) as Inv.
  pose proof (settled_inside self w id Inv (or_intror Hrel)) as Hid.
  destruct (steps_frame self w w' St) as [Hn Hadv].
  destruct (Hadv id Hid) as (_ & Hp & Hr). specialize (Hr Hrel).
  pose proof Inv as (_ & _ & Hok & _).
  destruct (Hok id) as (Hrp & _). specialize (Hp (Hrp Hrel)).
  pose proof (reachable_invariant self w' (steps_reachable self w w' R St))
    as (_ & Hnext & Hok' & _).
  destruct (Hok' id) as (_ & _ & Hz & _).
  split; [exact Hr|]. split; [exact (Hz Hr)|]. intros m to Hto.
  unfold releaseFunds, refund, validInvoice, abi_address.
  rewrite Hp, Hr. cbn [negb]. split; tx_pass; reflexivity.
Qed.

Lemma invoice_is_paid_out_once_witness :
  released (invoices (pay PaySamples.settled) 1) = true /\
  netAmount (invoices (pay PaySamples.settled) 1) = 0 /\
  forall m to, 0 <= to < 2 ^ 160 ->
    releaseFunds m 1 to PaySamples.settled = Revert "already released" /\
    refund m 1 to PaySamples.settled = Revert "already released".
Proof.
  apply (invoice_is_paid_out_once PaySamples.self PaySamples.settled
           PaySamples.settled 1);
    [exact reachable_settled|apply steps_refl|reflexivity].
Defined.

(** X9. The terms of an invoice never change: issuer, payer, token, gross
    amount, metadata and creation time of an existing invoice are the same
    after any number of steps, and its number stays in use. *)
Theorem invoice_terms_are_immutable (self : address) (w w' : World) (id : Z) :
  steps self w w' -> 0 < id < nextInvoiceId (pay w) ->
  same_terms (invoices (pay w) id) (invoices (pay w') id) /\
  0 < id < nextInvoiceId (pay w').
Proof.
  intros St Hid. destruct (steps_frame self w w' St) as [Hn Hadv].
  destruct (Hadv id Hid) as (Ht & _). split; [exact Ht|lia].
Qed.

Lemma invoice_terms_are_immutable_witness :
  same_terms (invoices (pay PaySamples.invoiced) 1)
             (invoices (pay PaySamples.settled) 1) /\
  0 < 1 < nextInvoiceId (pay PaySamples.settled).
Proof.
  apply (invoice_terms_are_immutable PaySamples.self);
    [exact steps_invoiced_settled|vm_compute; split; reflexivity].
Defined.

(** *** Who may do what *)

(** X10. Tokens leave the contract only through [releaseFunds], called by
    the issuer of the invoice, or [refund], called by the issuer or the
    owner; what leaves is the net amount of that invoice in its token. *)
Theorem only_issuer_or_owner_takes_funds (self : address) (m : Msg) (c : Call)
        (w w' : World) (evs : list Event) (t : address) :
  reachable self w -> this m = self -> sender m <> self ->
  exec m c w = Success (w', evs) ->
  balanceOf (erc20 w') t self < balanceOf (erc20 w) t self ->
  exists id to,
    let inv := invoices (pay w) id in
    ((c = CallReleaseFunds id to /\ sender m = issuer inv) \/
     (c = CallRefund id to /\
      (sender m = issuer inv \/ sender m = owner (pay w)))) /\
    t = token inv /\ to <> self /\
    balanceOf (erc20 w) t self - balanceOf (erc20 w') t self = netAmount inv.
Proof.
  intros R Hself Hs Hexec Hlt.
  apply reachable_invariant in R. destruct R as ((Hbps & _) & _).
  assert (Hout : forall id to,
            releaseFunds m id to w = Success (w', evs) \/
            refund m id to w = Success (w', evs) ->
            t = token (invoices (pay w) id) /\ to <> self /\
            balanceOf (erc20 w) t self - balanceOf (erc20 w') t self
            = netAmount (invoices (pay w) id)).
  { intros id to H. apply pay_out_success in H. cbv zeta in H.
    destruct H as (_ & _ & _ & Hnet & _ & _ & _ & _ & _ & Hbal).
    rewrite Hbal, Hself in Hlt. rewrite Hbal, Hself. unfold moved in *.
    destruct (t =? token (invoices (pay w) id)) eqn:Et; cbn [andb] in *; [|lia].
    rewrite Z.eqb_refl in *.
    destruct (self =? to) eqn:Eto; [lia|]. repeat split; lia. }
  destruct c; cbn [exec] in Hexec.
  1,2,7,8: apply on_state_success in Hexec;
           destruct Hexec as (s' & _ & ->); cbn in Hlt; lia.
  - destruct (createInvoice _ _ _ _ _ _) as [[[i s'] e]| |];
      cbn [tx_bind] in Hexec; try discriminate.
    injection Hexec as <- _. cbn in Hlt. lia.
  - apply payInvoice_success in Hexec; [|lia]. cbv zeta in Hexec.
    destruct Hexec as (_ & _ & _ & Hamt & _ & _ & _ & _ & Hbal).
    destruct (fee_bounds _ _ Hamt Hbps) as (Hf0 & Hf5 & _).
    rewrite Hbal, Hself in Hlt. unfold moved in Hlt.
    destruct (t =? token (invoices (pay w) id)); cbn [andb] in Hlt; [|lia].
    rewrite Z.eqb_refl in Hlt.
    destruct (self =? sender m) eqn:E1; [lia|].
    destruct (self =? feeVault (pay w)); lia.
  - exists id, to. cbv zeta.
    destruct (Hout id to (or_introl Hexec)) as (H1 & H2 & H3).
    split; [left; split; [reflexivity|]|auto].
    apply releaseFunds_only_issuer in Hexec. apply Hexec.
  - exists id, to. cbv zeta.
    destruct (Hout id to (or_intror Hexec)) as (H1 & H2 & H3).
    split; [right; split; [reflexivity|]|auto].
    apply (pay_out_success m id to w w' evs (or_intror Hexec)).
Qed.

Lemma only_issuer_or_owner_takes_funds_witness :
  exists id to,
    let inv := invoices (pay PaySamples.paid_up) id in
    ((CallReleaseFunds 1 PaySamples.receiver = CallReleaseFunds id to /\
      PaySamples.issuer_ = issuer inv) \/
     (CallReleaseFunds 1 PaySamples.receiver = CallRefund id to /\
      (PaySamples.issuer_ = issuer inv \/
       PaySamples.issuer_ = owner (pay PaySamples.paid_up)))) /\
    PaySamples.usdc = token inv /\ to <> PaySamples.self /\
    balanceOf (erc20 PaySamples.paid_up) PaySamples.usdc PaySamples.self
    - balanceOf (erc20 PaySamples.settled) PaySamples.usdc PaySamples.self
    = netAmount inv.
Proof.
  apply (only_issuer_or_owner_takes_funds PaySamples.self
           (PaySamples.from PaySamples.issuer_)
           (CallReleaseFunds 1 PaySamples.receiver)
           PaySamples.paid_up PaySamples.settled
           [InvoiceReleased 1 PaySamples.receiver 99] PaySamples.usdc);
    [exact reachable_paid_up|reflexivity|discriminate|reflexivity
    |vm_compute; reflexivity].
Defined.

(** X11. Only the owner changes the fee, the fee vault or the owner: a call
    of any other sender that succeeds leaves all three as they are.  So
    after [renounceOwnership] they are frozen. *)
Theorem only_owner_changes_settings (m : Msg) (c : Call) (w w' : World)
        (evs : list Event) :
  exec m c w = Success (w', evs) ->
  sender m <> owner (pay w) ->
  feeBps (pay w') = feeBps (pay w) /\
  feeVault (pay w') = feeVault (pay w) /\
  owner (pay w') = owner (pay w).
Proof.
  intros Hexec Hs. destruct c; cbn [exec] in Hexec.
  1,2,7,8: apply on_state_success in Hexec;
           destruct Hexec as (s' & Hr & ->);
           destruct (owner_call_success m (pay w) s' evs) as (Ho & _);
           [solve [left; eexists; exact Hr | right; left; eexists; exact Hr
                  | right; right; left; eexists; exact Hr
                  | right; right; right; exact Hr]|];
           contradiction.
  - destruct (createInvoice _ _ _ _ _ _) as [[[i s'] e]| |] eqn:E;
      cbn [tx_bind] in Hexec; try discriminate.
    injection Hexec as <- _. cbn [pay fst snd].
    apply createInvoice_success in E.
    destruct E as (_ & _ & _ & _ & _ & _ & H1 & H2 & H3 & _). auto.
  - unfold payInvoice in Hexec. tx_inv Hexec. injection Hexec as <- _.
    cbn. auto.
  - pose proof (pay_out_success m id to w w' evs (or_introl Hexec)) as H.
    cbv zeta in H. destruct H as (_ & _ & _ & _ & _ & _ & _ & _ & -> & _).
    cbn. auto.
  - pose proof (pay_out_success m id to w w' evs (or_intror Hexec)) as H.
    cbv zeta in H. destruct H as (_ & _ & _ & _ & _ & _ & _ & _ & -> & _).
    cbn. auto.
Qed.

Lemma only_owner_changes_settings_witness :
  feeBps (pay PaySamples.invoiced) = feeBps (pay PaySamples.deployed) /\
  feeVault (pay PaySamples.invoiced) = feeVault (pay PaySamples.deployed) /\
  owner (pay PaySamples.invoiced) = owner (pay PaySamples.deployed).
Proof.
  apply (only_owner_changes_settings (PaySamples.from PaySamples.issuer_)
           PaySamples.create PaySamples.deployed PaySamples.invoiced
           [InvoiceCreated 1 PaySamples.issuer_ PaySamples.payer_ 100
              PaySamples.usdc "ipfs://meta"]);
    [reflexivity|discriminate].
Defined.

(** *** Invoice numbers *)

Lemma createInvoice_runs (m : Msg) (p t : address) (a : Z) (u : string)
      (s : State) :
  0 < p < 2 ^ 160 -> 0 < t < 2 ^ 160 -> 0 < a <= MAX_UINT256 ->
  nextInvoiceId s < MAX_UINT256 ->
  exists s', createInvoice m p t a u s
             = Success (nextInvoiceId s, s',
                        [InvoiceCreated (nextInvoiceId s) (sender m) p a t u]).
Proof.
  intros Hp Ht Ha Hn. unfold createInvoice, abi_address. tx_pass.
  unfold checked_succ.
  replace (nextInvoiceId s + 1 <=? MAX_UINT256) with true by (symmetry; lia).
  cbn [tx_bind]. eexists. reflexivity.
Qed.

(** X12. Invoices are numbered consecutively from the counter, and
    [getInvoice] reads back what [createInvoice] wrote: the number returned
    was not valid before, is valid afterwards with exactly the invoice
    of the call, and the next invoice gets the next number and leaves this
    one as it is. *)
Theorem invoice_ids_are_consecutive (m : Msg) (p t : address) (a : Z)
        (u : string) (s s' : State) (id : Z) (evs : list Event) :
  1 <= nextInvoiceId s ->
  createInvoice m p t a u s = Success (id, s', evs) ->
  id = nextInvoiceId s /\
  getInvoice id s = Revert "invalid invoice id" /\
  getInvoice id s'
    = Success {| issuer := sender m; payer := p; token := t; amount := a;
                 netAmount := 0; metadataURI := u; paid := false;
                 released := false; createdAt := timestamp m |} /\
  forall m2 p2 t2 a2 u2 id2 s2 evs2,
    createInvoice m2 p2 t2 a2 u2 s' = Success (id2, s2, evs2) ->
    id2 = id + 1 /\ getInvoice id s2 = getInvoice id s'.
Proof.
  intros Hn H. apply createInvoice_success in H.
  destruct H as (-> & Hn' & Hmax & _ & _ & _ & _ & _ & _ & Hinv & _ & _).
  split; [reflexivity|]. split; [|split].
  - unfold getInvoice, validInvoice. tx_pass.
    replace ((0 <? nextInvoiceId s) && (nextInvoiceId s <? nextInvoiceId s))
      with false by (symmetry; lia).
    reflexivity.
  - unfold getInvoice, validInvoice. tx_pass. rewrite Hinv. reflexivity.
  - intros m2 p2 t2 a2 u2 id2 s2 evs2 H2. apply createInvoice_success in H2.
    destruct H2 as (-> & Hn2 & Hmax2 & _ & _ & _ & _ & _ & _ & _ & Hrest & _).
    split; [lia|]. unfold getInvoice, validInvoice. tx_pass.
    rewrite Hrest by lia. reflexivity.
Qed.

Lemma invoice_ids_are_consecutive_witness :
  1 = nextInvoiceId (pay PaySamples.deployed) /\
  getInvoice 1 (pay PaySamples.deployed) = Revert "invalid invoice id" /\
  getInvoice 1 (pay PaySamples.invoiced)
    = Success {| issuer := PaySamples.issuer_; payer := PaySamples.payer_;
                 token := PaySamples.usdc; amount := 100; netAmount := 0;
                 metadataURI := "ipfs://meta"; paid := false;
                 released := false; createdAt := 1700000000 |} /\
  forall m2 p2 t2 a2 u2 id2 s2 evs2,
    createInvoice m2 p2 t2 a2 u2 (pay PaySamples.invoiced)
      = Success (id2, s2, evs2) ->
    id2 = 1 + 1 /\
    getInvoice 1 s2 = getInvoice 1 (pay PaySamples.invoiced).
Proof.
  apply (invoice_ids_are_consecutive (PaySamples.from PaySamples.issuer_)
           PaySamples.payer_ PaySamples.usdc 100 "ipfs://meta"
           (pay PaySamples.deployed) (pay PaySamples.invoiced) 1
           [InvoiceCreated 1 PaySamples.issuer_ PaySamples.payer_ 100
              PaySamples.usdc "ipfs://meta"]);
    [vm_compute; discriminate|reflexivity].
Defined.

(** X13. [createInvoice] accepts every amount of [uint256], but an invoice
    whose amount times the fee exceeds [uint256] cannot be paid while the
    fee stays: [payInvoice] never succeeds for it, and for a payer with the
    funds and the allowance it fails with the arithmetic panic 0x11 of the
    checked multiplication [gross * feeBps]. *)
Theorem oversized_invoice_is_unpayable (m : Msg) (p t : address) (a : Z)
        (u : string) (s s' : State) (id : Z) (evs : list Event) :
  1 <= nextInvoiceId s -> 0 <= feeBps s ->
  createInvoice m p t a u s = Success (id, s', evs) ->
  MAX_UINT256 < a * feeBps s ->
  forall m' l,
    (forall w' evs',
       payInvoice m' id {| pay := s'; erc20 := l |} <> Success (w', evs')) /\
    (sender m' = p -> this m' <> 0 ->
     a <= balanceOf l t p -> a <= allowance l t p (this m') ->
     payInvoice m' id {| pay := s'; erc20 := l |} = Panic 17).
Proof.
  intros Hn Hb H Hbig m' l. apply createInvoice_success in H.
  destruct H as (-> & Hn' & Hmax & Ha & Hp & Ht & Hf & _ & _ & Hinv & _ & _).
  split.
  - intros w' evs' H. apply payInvoice_success in H; cbn [pay]; [|lia].
    cbv zeta in H. cbn [pay] in H. rewrite Hinv, Hf in H.
    destruct H as (_ & _ & _ & _ & Hm & _). cbn [amount] in Hm. lia.
  - intros Hs Hthis Hbal Hall.
    destruct (transferFrom_runs l t (this m') p (this m') a) as [l1 Hl1];
      try assumption.
    unfold payInvoice, validInvoice. cbn [pay erc20]. rewrite Hinv, Hn', Hf.
    cbn [paid negb token amount payer]. rewrite Hs. tx_pass.
    rewrite Hl1. cbn [tx_bind]. unfold checked_mul.
    replace (a * feeBps s <=? MAX_UINT256) with false by (symmetry; lia).
    reflexivity.
Qed.

Lemma oversized_invoice_is_unpayable_witness :
  (forall w' evs',
     payInvoice (PaySamples.from PaySamples.payer_) 1
       {| pay := PaySamples.oversized; erc20 := PaySamples.rich |}
     <> Success (w', evs')) /\
  payInvoice (PaySamples.from PaySamples.payer_) 1
    {| pay := PaySamples.oversized; erc20 := PaySamples.rich |} = Panic 17.
Proof.
  destruct (oversized_invoice_is_unpayable
              (PaySamples.from PaySamples.issuer_)
              PaySamples.payer_ PaySamples.usdc MAX_UINT256 "big"
              (pay PaySamples.deployed) PaySamples.oversized 1
              [InvoiceCreated 1 PaySamples.issuer_ PaySamples.payer_
                 MAX_UINT256 PaySamples.usdc "big"]
              ltac:(vm_compute; discriminate) ltac:(vm_compute; discriminate)
              eq_refl eq_refl
              (PaySamples.from PaySamples.payer_) PaySamples.rich)
    as [H1 H2].
  split; [exact H1|].
  apply H2; [reflexivity|discriminate|vm_compute; discriminate
            |vm_compute; discriminate].
Defined.

(** *** The flow create, pay, release *)

(** X14. The whole flow goes through and conserves the tokens: from a
    reachable world, an issuer creates an invoice, the payer (with the
    funds and the allowance) pays it and the issuer releases it to a
    receiver; the three calls succeed, the invoice gets the number of the
    counter, the payer has paid the gross amount, the fee vault has
    received the fee, the receiver the rest, and the contract holds what it
    held before. *)
Theorem create_pay_release_flow (self : address) (w : World) (mi mp : Msg)
        (tok to : address) (a : Z) (u : string) :
  reachable self w -> self <> 0 ->
  this mi = self -> this mp = self ->
  sender mi <> self -> sender mp <> self ->
  0 < sender mp < 2 ^ 160 -> 0 < tok < 2 ^ 160 -> 0 < to < 2 ^ 160 ->
  0 < a <= MAX_UINT256 -> a * feeBps (pay w) <= MAX_UINT256 ->
  nextInvoiceId (pay w) < MAX_UINT256 ->
  a <= balanceOf (erc20 w) tok (sender mp) ->
  a <= allowance (erc20 w) tok (sender mp) self ->
  feeVault (pay w) <> self -> feeVault (pay w) <> sender mp ->
  to <> self -> to <> sender mp -> to <> feeVault (pay w) ->
  let id := nextInvoiceId (pay w) in
  let fee := a * feeBps (pay w) / 10000 in
  exists w1 w2 w3,
    exec mi (CallCreateInvoice (sender mp) tok a u) w
      = Success (w1, [InvoiceCreated id (sender mi) (sender mp) a tok u]) /\
    exec mp (CallPayInvoice id) w1
      = Success (w2, [InvoicePaid id (sender mp) a fee]) /\
    exec mi (CallReleaseFunds id to) w2
      = Success (w3, [InvoiceReleased id to (a - fee)]) /\
    balanceOf (erc20 w3) tok (sender mp)
      = balanceOf (erc20 w) tok (sender mp) - a /\
    balanceOf (erc20 w3) tok (feeVault (pay w))
      = balanceOf (erc20 w) tok (feeVault (pay w)) + fee /\
    balanceOf (erc20 w3) tok to = balanceOf (erc20 w) tok to + (a - fee) /\
    balanceOf (erc20 w3) tok self = balanceOf (erc20 w) tok self.
Proof.
  intros R Hnz Hmi Hmp Hsi Hsp Hp Htok Hto Ha Hmul Hnext Hbal Hall
         Hv1 Hv2 Ht1 Ht2 Ht3 id fee.
  pose proof (reachable_invariant self w R) as Inv.
  pose proof Inv as ((Hbps & Hv) & Hn1 & _).
  (* create *)
  destruct (createInvoice_runs mi (sender mp) tok a u (pay w))
    as [s1 Hc]; try assumption.
  fold id in Hc.
  pose proof (createInvoice_success _ _ _ _ _ _ _ _ _ Hc)
    as (_ & Hn' & _ & _ & _ & _ & Hf & Hfv & _ & Hinv & _ & _).
  set (w1 := {| pay := s1; erc20 := erc20 w |}).
  assert (E1 : exec mi (CallCreateInvoice (sender mp) tok a u) w
               = Success (w1, [InvoiceCreated id (sender mi) (sender mp) a tok u])).
  { cbn [exec]. rewrite Hc. reflexivity. }
  assert (Inv1 : invariant self w1).
  { eapply invariant_step; [exact Inv|].
    exact (step_exec self mi _ w w1 _ Hmi Hsi E1). }
  (* pay *)
  assert (Hid1 : 0 < id < nextInvoiceId (pay w1)) by (cbn [pay w1]; lia).
  destruct (payInvoice_runs self mp id w1) as [w2 Hp2];
    try assumption; cbn [pay erc20 w1]; rewrite ?Hinv, ?Hf;
    cbn [paid payer amount token]; try assumption; try reflexivity.
  cbn [pay erc20 w1] in Hp2. rewrite Hinv, Hf in Hp2.
  cbn [paid payer amount token] in Hp2. fold fee in Hp2.
  assert (Inv2 : invariant self w2).
  { eapply invariant_step; [exact Inv1|].
    exact (step_exec self mp (CallPayInvoice id) w1 w2 _ Hmp Hsp Hp2). }
  pose proof Hp2 as Hs2. apply payInvoice_success in Hs2;
    [|cbn [pay w1]; lia].
  cbv zeta in Hs2. cbn [pay erc20 w1] in Hs2. rewrite Hinv, Hf, Hfv in Hs2.
  cbn [paid payer amount token issuer released metadataURI createdAt] in Hs2.
  fold fee in Hs2.
  destruct Hs2 as (_ & _ & _ & _ & _ & _ & Hpay2 & _ & Hbal2).
  destruct (fee_bounds a (feeBps (pay w)) (proj1 Ha) Hbps) as (Hf0 & Hf5 & Hnet).
  fold fee in Hf0, Hf5, Hnet.
  assert (Hinv2 : invoices (pay w2) id
                  = {| issuer := sender mi; payer := sender mp; token := tok;
                       amount := a; netAmount := a - fee; metadataURI := u;
                       paid := true; released := false;
                       createdAt := timestamp mi |}).
  { rewrite Hpay2. cbn. rewrite Z.eqb_refl. reflexivity. }
  assert (Hn2 : nextInvoiceId (pay w2) = nextInvoiceId s1)
    by (rewrite Hpay2; reflexivity).
  (* release *)
  assert (Hself2 : a - fee <= balanceOf (erc20 w2) tok self).
  { pose proof (held_backed self w2 id Inv2) as Hh.
    rewrite Hinv2 in Hh. cbn in Hh. apply Hh. lia. }
  destruct (pay_out_runs mi id to w2) as [Hrun _];
    rewrite ?Hinv2, ?Hn2, ?Hmi; cbn [paid released netAmount token];
    try assumption; try reflexivity; try lia.
  rewrite Hinv2 in Hrun. cbn [issuer netAmount] in Hrun.
  destruct (Hrun eq_refl) as [w3 Hr3].
  pose proof (pay_out_success mi id to w2 w3 _ (or_introl Hr3)) as Hs3.
  cbv zeta in Hs3. rewrite Hinv2 in Hs3. cbn [token netAmount] in Hs3.
  destruct Hs3 as (_ & _ & _ & _ & _ & _ & _ & _ & _ & Hbal3).
  exists w1, w2, w3.
  split; [exact E1|]. split; [exact Hp2|]. split; [exact Hr3|].
  rewrite !Hbal3, !Hbal2, Hmi, Hmp. unfold moved. rewrite !Z.eqb_refl.
  replace (sender mp =? self) with false by lia.
  replace (self =? sender mp) with false by lia.
  replace (sender mp =? feeVault (pay w)) with false by lia.
  replace (feeVault (pay w) =? sender mp) with false by lia.
  replace (feeVault (pay w) =? self) with false by lia.
  replace (self =? feeVault (pay w)) with false by lia.
  replace (to =? self) with false by lia.
  replace (self =? to) with false by lia.
  replace (to =? sender mp) with false by lia.
  replace (sender mp =? to) with false by lia.
  replace (to =? feeVault (pay w)) with false by lia.
  replace (feeVault (pay w) =? to) with false by lia.
  cbn [andb]. repeat split; lia.
Qed.

Lemma create_pay_release_flow_witness :
  exists w1 w2 w3,
    exec (PaySamples.from PaySamples.issuer_)
         (CallCreateInvoice PaySamples.payer_ PaySamples.usdc 100 "ipfs://meta")
         PaySamples.deployed
      = Success (w1, [InvoiceCreated 1 PaySamples.issuer_ PaySamples.payer_
                        100 PaySamples.usdc "ipfs://meta"]) /\
    exec (PaySamples.from PaySamples.payer_) (CallPayInvoice 1) w1
      = Success (w2, [InvoicePaid 1 PaySamples.payer_ 100 1]) /\
    exec (PaySamples.from PaySamples.issuer_)
         (CallReleaseFunds 1 PaySamples.receiver) w2
      = Success (w3, [InvoiceReleased 1 PaySamples.receiver 99]) /\
    balanceOf (erc20 w3) PaySamples.usdc PaySamples.payer_ = 1000000 - 100 /\
    balanceOf (erc20 w3) PaySamples.usdc PaySamples.vault = 0 + 1 /\
    balanceOf (erc20 w3) PaySamples.usdc PaySamples.receiver = 0 + 99 /\
    balanceOf (erc20 w3) PaySamples.usdc PaySamples.self = 0.
Proof.
  apply (create_pay_release_flow PaySamples.self PaySamples.deployed
           (PaySamples.from PaySamples.issuer_)
           (PaySamples.from PaySamples.payer_)
           PaySamples.usdc PaySamples.receiver 100 "ipfs://meta");
    try exact reachable_deployed; try reflexivity; try discriminate;
    vm_compute; split; (reflexivity || discriminate).
Defined.

(** *** What the owner can do *)

(** X28. The owner can move the funds of any invoice that is paid and not
    yet released: in a reachable world [refund], sent by the owner with any
    recipient but zero, succeeds, pays the whole net amount to that
    recipient and closes the invoice, whoever its issuer and payer are. *)
Theorem owner_can_refund_any_invoice (self : address) (w : World) (m : Msg)
        (id : Z) (to : address) :
  reachable self w -> self <> 0 -> this m = self ->
  paid (invoices (pay w) id) = true ->
  released (invoices (pay w) id) = false ->
  sender m = owner (pay w) ->
  0 < to < 2 ^ 160 -> to <> self ->
  let inv := invoices (pay w) id in
  exists w',
    refund m id to w = Success (w', [InvoiceRefunded id to (netAmount inv)]) /\
    0 < netAmount inv /\
    released (invoices (pay w') id) = true /\
    balanceOf (erc20 w') (token inv) to
      = balanceOf (erc20 w) (token inv) to + netAmount inv.
Proof.
  intros R Hnz Hself Hpaid Hrel Hs Hto Hne inv.
  apply reachable_invariant in R.
  pose proof (settled_inside self w id R (or_introl Hpaid)) as Hid.
  pose proof (held_backed self w id R Hid) as Hb. fold inv in Hb.
  pose proof R as (_ & Hnext & Hok & _).
  destruct (Hok id) as (_ & _ & _ & H4). specialize (H4 Hpaid Hrel).
  fold inv in H4.
  destruct (pay_out_runs m id to w) as [_ Hrun]; try assumption;
    try lia; try (rewrite Hself; assumption).
  { rewrite Hself. fold inv. lia. }
  destruct (Hrun (or_intror Hs)) as [w' Hw']. exists w'. fold inv in Hw'.
  split; [exact Hw'|]. split; [lia|].
  pose proof (pay_out_success m id to w w' _ (or_intror Hw')) as H.
  cbv zeta in H. destruct H as (_ & _ & _ & _ & _ & _ & _ & _ & Hpay & Hbal).
  split.
  - rewrite Hpay. cbn. rewrite Z.eqb_refl. reflexivity.
  - rewrite Hbal. fold inv. unfold moved. rewrite !Z.eqb_refl, Hself.
    replace (to =? self) with false by lia. cbn [andb]. lia.
Qed.

Lemma owner_can_refund_any_invoice_witness :
  exists w',
    refund (PaySamples.from PaySamples.deployer) 1 PaySamples.deployer
      PaySamples.paid_up
      = Success (w', [InvoiceRefunded 1 PaySamples.deployer 99]) /\
    0 < 99 /\
    released (invoices (pay w') 1) = true /\
    balanceOf (erc20 w') PaySamples.usdc PaySamples.deployer = 0 + 99.
Proof.
  apply (owner_can_refund_any_invoice PaySamples.self PaySamples.paid_up
           (PaySamples.from PaySamples.deployer) 1 PaySamples.deployer);
    [exact reachable_paid_up|discriminate|reflexivity|reflexivity|reflexivity
    |reflexivity|vm_compute; split; reflexivity|discriminate].
Defined.

End ArcadiaPayFacts.

(** ** The command line of the timelock helper *)

Section CommandLineFacts.

Import Ethers TimelockHelper CommandLine.

Lemma is_flag_spec (a : string) :
  is_flag a = true -> a = flag (slice2 a).
Proof.
  unfold is_flag, flag. intros H. apply prefix_correct in H.
  destruct a as [|c1 [|c2 r]]; cbn in H; try discriminate.
  injection H as -> -> _. reflexivity.
Qed.

Lemma is_flag_flag (k : string) : is_flag (flag k) = true.
Proof.
  unfold is_flag, flag. apply prefix_correct. cbn. now destruct k.
Qed.

Lemma slice2_flag (k : string) : slice2 (flag k) = k.
Proof. reflexivity. Qed.

Lemma get_set_same (k : string) (v : optval) (o : Opts) :
  k <> "__proto__"%string -> get k (set k v o) = v.
Proof.
  intros N. unfold set. destruct (String.eqb_spec k "__proto__"); [contradiction|].
  cbn [get]. now rewrite String.eqb_refl.
Qed.

Lemma get_set_other (k k' : string) (v : optval) (o : Opts) :
  k <> k' -> get k (set k' v o) = get k o.
Proof.
  intros N. unfold set. destruct (k' =? "__proto__")%string; [reflexivity|].
  cbn [get]. destruct (String.eqb_spec k k'); [contradiction|reflexivity].
Qed.

Lemma get_set_cases (k k' : string) (v : optval) (o : Opts) :
  get k (set k' v o) = get k o \/ (k = k' /\ get k (set k' v o) = v).
Proof.
  unfold set. destruct (k' =? "__proto__")%string; [left; reflexivity|].
  cbn [get]. destruct (String.eqb_spec k k'); [right; auto|left; reflexivity].
Qed.

Lemma is_value_spec (t : string) :
  is_value t = true <-> t <> EmptyString /\ is_flag t = false.
Proof.
  unfold is_value. rewrite andb_true_iff, !negb_true_iff. split.
  - intros [H1 H2]. split; [|exact H2]. intros ->. discriminate.
  - intros [H1 H2]. split; [|exact H2].
    destruct (String.eqb_spec t ""); [contradiction|reflexivity].
Qed.

Lemma parseArgs_from_cons (a : string) (rest : list string) (o : Opts) :
  parseArgs_from (a :: rest) o =
  if is_flag a then
    match rest with
    | next :: rest' =>
        if is_value next
        then parseArgs_from rest' (set (slice2 a) (Value next) o)
        else parseArgs_from rest (set (slice2 a) Flag o)
    | [] => set (slice2 a) Flag o
    end
  else if negb (opt_truthy (get "_cmd" o)) then
    parseArgs_from rest (set "_cmd" (Value a) o)
  else parseArgs_from rest o.
Proof. reflexivity. Qed.

(** Induction along the loop, which takes one token or two. *)
Lemma parseArgs_from_ind (P : list string -> Opts -> Opts -> Prop) :
  (forall o, P [] o o) ->
  (forall a o, is_flag a = true -> P [a] o (set (slice2 a) Flag o)) ->
  (forall a v rest o r,
     is_flag a = true -> is_value v = true ->
     P rest (set (slice2 a) (Value v) o) r -> P (a :: v :: rest) o r) ->
  (forall a t rest o r,
     is_flag a = true -> is_value t = false ->
     P (t :: rest) (set (slice2 a) Flag o) r -> P (a :: t :: rest) o r) ->
  (forall a rest o r,
     is_flag a = false -> opt_truthy (get "_cmd" o) = false ->
     P rest (set "_cmd" (Value a) o) r -> P (a :: rest) o r) ->
  (forall a rest o r,
     is_flag a = false -> opt_truthy (get "_cmd" o) = true ->
     P rest o r -> P (a :: rest) o r) ->
  forall argv o, P argv o (parseArgs_from argv o).
Proof.
  intros H0 H1 H2 H3 H4 H5 argv.
  assert (G : forall n argv, (length argv <= n)%nat ->
              forall o, P argv o (parseArgs_from argv o)).
  { induction n as [|n IH]; intros [|a rest] L o; cbn in L; try lia;
      try apply H0.
    cbn [parseArgs_from]. destruct (is_flag a) eqn:Fa.
    - destruct rest as [|t rest']; [apply H1; exact Fa|].
      destruct (is_value t) eqn:Vt.
      + apply H2; auto. apply IH. cbn in L. lia.
      + apply H3; auto. apply IH. lia.
    - destruct (opt_truthy (get "_cmd" o)) eqn:C; cbn [negb].
      + apply H5; auto. apply IH. lia.
      + apply H4; auto. apply IH. lia. }
  intros o. apply (G (length argv)). lia.
Qed.

(** A flag always starts a new option: the tokens before it are parsed on
    their own. *)
Lemma parseArgs_from_app (pre : list string) (a : string) (rest : list string)
      (o : Opts) :
  is_flag a = true ->
  parseArgs_from (pre ++ a :: rest) o
  = parseArgs_from (a :: rest) (parseArgs_from pre o).
Proof.
  intros Fa.
  apply (parseArgs_from_ind
           (fun pre o r => parseArgs_from (pre ++ a :: rest) o
                           = parseArgs_from (a :: rest) r)).
  - reflexivity.
  - intros b o' Fb. cbn [app]. cbn [parseArgs_from]. rewrite Fb.
    assert (V : is_value a = false).
    { unfold is_value. rewrite Fa. apply andb_false_r. }
    rewrite V. reflexivity.
  - intros b v rest' o' r Fb Vv IH. cbn [app]. cbn [parseArgs_from].
    rewrite Fb, Vv. exact IH.
  - intros b t rest' o' r Fb Vt IH. cbn [app]. cbn [parseArgs_from].
    rewrite Fb, Vt. exact IH.
  - intros b rest' o' r Fb C IH. cbn [app]. cbn [parseArgs_from].
    rewrite Fb, C. exact IH.
  - intros b rest' o' r Fb C IH. cbn [app]. cbn [parseArgs_from].
    rewrite Fb, C. exact IH.
Qed.

(** An option that is set (to something truthy) keeps its value as long as
    its flag does not come again. *)
Lemma parseArgs_from_keeps (k : string) (argv : list string) (o : Opts) :
  opt_truthy (get k o) = true -> ~ In (flag k) argv ->
  get k (parseArgs_from argv o) = get k o.
Proof.
  apply (parseArgs_from_ind
           (fun argv o r => opt_truthy (get k o) = true ->
                            ~ In (flag k) argv -> get k r = get k o)).
  - reflexivity.
  - intros a o' Fa T N. apply get_set_other.
    intros ->. apply N. left. apply is_flag_spec, Fa.
  - intros a v rest o' r Fa Vv IH T N.
    assert (Hk : k <> slice2 a).
    { intros ->. apply N. left. apply is_flag_spec, Fa. }
    rewrite IH.
    + apply get_set_other, Hk.
    + rewrite get_set_other by exact Hk. exact T.
    + intros I. apply N. right. right. exact I.
  - intros a t rest o' r Fa Vt IH T N.
    assert (Hk : k <> slice2 a).
    { intros ->. apply N. left. apply is_flag_spec, Fa. }
    rewrite IH.
    + apply get_set_other, Hk.
    + rewrite get_set_other by exact Hk. exact T.
    + intros I. apply N. right. exact I.
  - intros a rest o' r Fa C IH T N.
    assert (Hk : k <> "_cmd"%string).
    { intros ->. rewrite T in C. discriminate. }
    rewrite IH.
    + apply get_set_other, Hk.
    + rewrite get_set_other by exact Hk. exact T.
    + intros I. apply N. right. exact I.
  - intros a rest o' r Fa C IH T N. apply IH; [exact T|].
    intros I. apply N. right. exact I.
Qed.

Lemma read_from_app (done more : list string) (o : Opts) :
  read_from done o -> read_from (done ++ more) o.
Proof.
  intros H k v E. destruct (H k v E) as (H1 & H2 & H3).
  split; [apply in_or_app; left; exact H1|]. split; [exact H2|].
  intros N. destruct (H3 N) as (Hn & pre & post & ->).
  split; [exact Hn|]. exists pre, (post ++ more)%list.
  rewrite <- app_assoc. reflexivity.
Qed.

Lemma read_from_set_Flag (done : list string) (k : string) (o : Opts) :
  read_from done o -> read_from done (set k Flag o).
Proof.
  intros H k0 v0.
  destruct (get_set_cases k0 k Flag o) as [E|[_ E]]; rewrite E;
    [apply H|discriminate].
Qed.

(** The loop keeps [read_from]: the options it returns were read from the
    tokens it has gone through. *)
Lemma parseArgs_from_read (argv : list string) (o : Opts) :
  forall done, read_from done o ->
               read_from (done ++ argv) (parseArgs_from argv o).
Proof.
  apply (parseArgs_from_ind
           (fun argv o r =>
              forall done, read_from done o -> read_from (done ++ argv) r)).
  - intros o' done H. rewrite app_nil_r. exact H.
  - intros a o' Fa done H. apply read_from_set_Flag, read_from_app, H.
  - intros a t rest o' r Fa Vt IH done H.
    replace (done ++ a :: t :: rest)%list with ((done ++ [a; t]) ++ rest)%list
      by (rewrite <- app_assoc; reflexivity).
    apply IH. intros k0 v0.
    destruct (get_set_cases k0 (slice2 a) (Value t) o') as [E|[-> E]];
      rewrite E; [apply (read_from_app done [a; t]), H|].
    clear E. intros E. injection E as <-. apply is_value_spec in Vt.
    destruct Vt as [Vn Vf].
    split; [apply in_or_app; right; right; left; reflexivity|].
    split; [exact Vf|]. intros _. split; [exact Vn|].
    exists done, []. rewrite <- (is_flag_spec a Fa). reflexivity.
  - intros a t rest o' r Fa Vt IH done H.
    replace (done ++ a :: t :: rest)%list with ((done ++ [a]) ++ t :: rest)%list
      by (rewrite <- app_assoc; reflexivity).
    apply IH, read_from_set_Flag, read_from_app, H.
  - intros a rest o' r Fa C IH done H.
    replace (done ++ a :: rest)%list with ((done ++ [a]) ++ rest)%list
      by (rewrite <- app_assoc; reflexivity).
    apply IH. intros k0 v0.
    destruct (get_set_cases k0 "_cmd" (Value a) o') as [E|[-> E]];
      rewrite E; [apply (read_from_app done [a]), H|].
    clear E. intros E. injection E as <-.
    split; [apply in_or_app; right; left; reflexivity|].
    split; [exact Fa|]. intros N. contradiction.
  - intros a rest o' r Fa C IH done H.
    replace (done ++ a :: rest)%list with ((done ++ [a]) ++ rest)%list
      by (rewrite <- app_assoc; reflexivity).
    apply IH, read_from_app, H.
Qed.

(** X15. What [parseArgs] stores under a name is never a flag: a string
    stored is a token of the command line that does not start with "--";
    under any name but [_cmd] it is a non-empty token that stands right
    after the flag of that name.  So an option that was given a value is
    always truthy. *)
Theorem parseArgs_option_values (argv : list string) (k v : string) :
  get k (parseArgs argv) = Value v ->
  In v argv /\ is_flag v = false /\
  (k <> "_cmd"%string ->
   v <> EmptyString /\
   (exists pre post, argv = pre ++ flag k :: v :: post) /\
   opt_truthy (get k (parseArgs argv)) = true).
Proof.
  intros H.
  assert (R : read_from argv (parseArgs argv)).
  { apply (parseArgs_from_read argv [] []). intros k0 v0 E. discriminate E. }
  destruct (R k v H) as (H1 & H2 & H3).
  split; [exact H1|]. split; [exact H2|]. intros N.
  destruct (H3 N) as [H4 H5]. split; [exact H4|]. split; [exact H5|].
  rewrite H. cbn. destruct (String.eqb_spec v ""); [contradiction|reflexivity].
Qed.

Lemma parseArgs_option_values_witness :
  In "0x01"%string ["schedule"; "--salt"; "0x01"; "--dry"]%string /\
  is_flag "0x01" = false /\
  ("salt"%string <> "_cmd"%string ->
   "0x01"%string <> EmptyString /\
   (exists pre post,
      ["schedule"; "--salt"; "0x01"; "--dry"]%string
      = (pre ++ flag "salt" :: "0x01"%string :: post)%list) /\
   opt_truthy (get "salt" (parseArgs ["schedule"; "--salt"; "0x01"; "--dry"]%string))
   = true).
Proof.
  apply (parseArgs_option_values
           ["schedule"; "--salt"; "0x01"; "--dry"]%string "salt" "0x01").
  reflexivity.
Defined.

(** X16. The value of an option is the token after the last occurrence of
    its flag: whatever comes before, [--k v] sets [k] to [v] when [v] is
    not empty and not a flag, and later tokens without [--k] leave it.
    (The name [__proto__] is no option: writing to it stores nothing.) *)
Theorem parseArgs_last_occurrence_wins (pre post : list string)
        (k v : string) :
  k <> "__proto__"%string ->
  v <> EmptyString -> is_flag v = false -> ~ In (flag k) post ->
  get k (parseArgs (pre ++ flag k :: v :: post)) = Value v.
Proof.
  intros Kp Vn Vf N. unfold parseArgs.
  rewrite parseArgs_from_app by apply is_flag_flag.
  rewrite parseArgs_from_cons, is_flag_flag, slice2_flag.
  rewrite (proj2 (is_value_spec v) (conj Vn Vf)).
  rewrite parseArgs_from_keeps.
  - apply get_set_same, Kp.
  - rewrite get_set_same by exact Kp. cbn.
    destruct (String.eqb_spec v ""); [contradiction|reflexivity].
  - exact N.
Qed.

Lemma parseArgs_last_occurrence_wins_witness :
  get "delay" (parseArgs (["schedule"; "--delay"; "5"]%string
                          ++ flag "delay" :: "60"%string
                             :: ["--target"; "0xab"]%string)%list)
  = Value "60".
Proof.
  apply (parseArgs_last_occurrence_wins
           ["schedule"; "--delay"; "5"]%string ["--target"; "0xab"]%string
           "delay" "60").
  - discriminate.
  - discriminate.
  - reflexivity.
  - cbn. intros [H|[H|[]]]; discriminate H.
Defined.

(** X17. The first token, when it is a word, is the command: it becomes
    [opts._cmd] and no later word replaces it. *)
Theorem parseArgs_first_word_is_command (cmd : string) (rest : list string) :
  cmd <> EmptyString -> is_flag cmd = false -> ~ In (flag "_cmd") rest ->
  get "_cmd" (parseArgs (cmd :: rest)) = Value cmd.
Proof.
  intros Cn Cf N. unfold parseArgs. rewrite parseArgs_from_cons, Cf.
  cbn [get opt_truthy negb]. rewrite parseArgs_from_keeps.
  - apply get_set_same. discriminate.
  - rewrite get_set_same by discriminate. cbn.
    destruct (String.eqb_spec cmd ""); [contradiction|reflexivity].
  - exact N.
Qed.

Lemma parseArgs_first_word_is_command_witness :
  get "_cmd" (parseArgs ["verify"; "--opId"; "0x01"; "extra"]%string)
  = Value "verify".
Proof.
  apply (parseArgs_first_word_is_command "verify"
           ["--opId"; "0x01"; "extra"]%string).
  - discriminate.
  - reflexivity.
  - cbn. intros [H|[H|[H|[]]]]; discriminate H.
Defined.

(** *** The verify loop from any state *)

Lemma poll_outcome (w : World) (id : string) (interval timeout : jsnum)
      (start : Z) (fuel : nat) (s : state) :
  match fst (poll w id interval timeout start fuel s) with
  | Returned r =>
      opId r = id /\
      (ready r = true \/ (done r = true /\ pending r = false))
  | Threw e => e = Timeout /\ exists t, timeout = Num t
  | StillPolling => True
  end.
Proof.
  revert s. induction fuel as [|fuel IH]; intros s; [exact I|].
  rewrite poll_S. unfold bindM, query_ready, query_done, query_pending,
    date_now, emit, ret.
  destruct (isOperationReady w id (n_ready s)); [cbn; auto|].
  cbn [n_done n_pending n_clock n_ready trace].
  destruct (isOperationDone w id (n_done s)); [cbn; auto|].
  cbn [n_done n_pending n_clock n_ready trace].
  destruct (elapsed_exceeds _ start timeout) eqn:E.
  - cbn. split; [reflexivity|]. destruct timeout as [t|]; [eauto|discriminate].
  - apply IH.
Qed.

(** X18. A flag without a value stores [true]: when [--k] is the last
    token, or the next token is empty or another flag, [opts.k] is the
    boolean [true] and not a string.  Read as a salt it makes [mkSalt]
    throw a [TypeError]; read as the timeout of [verify] it parses to
    [NaN], and the loop never times out. *)
Theorem parseArgs_flag_without_value (pre post : list string) (k : string)
        (env : Env) :
  k <> "__proto__"%string ->
  (post = [] \/ exists t post', post = t :: post' /\ is_value t = false) ->
  ~ In (flag k) post ->
  let o := get k (parseArgs (pre ++ flag k :: post)) in
  o = Flag /\
  mkSalt env o = Err (TypeError "provided.startsWith is not a function") /\
  forall w id opts_interval fuel e,
    fst (cmdVerify w id opts_interval o fuel initial) <> Threw e.
Proof.
  intros Kp Hpost N o.
  assert (Ho : o = Flag).
  { unfold o, parseArgs. rewrite parseArgs_from_app by apply is_flag_flag.
    destruct Hpost as [->|(t & post' & -> & Vt)].
    - rewrite parseArgs_from_cons, is_flag_flag, slice2_flag.
      apply get_set_same, Kp.
    - rewrite parseArgs_from_cons, is_flag_flag, slice2_flag, Vt.
      rewrite parseArgs_from_keeps.
      + apply get_set_same, Kp.
      + now rewrite get_set_same by exact Kp.
      + exact N. }
  rewrite Ho. split; [reflexivity|]. split; [reflexivity|].
  intros w id oi fuel e H.
  pose proof (poll_outcome w id (interval_of oi) (timeout_of Flag) (clock w 0)
                fuel (at_poll 0 [EvClock (clock w 0)])) as P.
  change (cmdVerify w id oi Flag fuel initial)
    with (poll w id (interval_of oi) (timeout_of Flag) (clock w 0)
            fuel (at_poll 0 [EvClock (clock w 0)])) in H.
  rewrite H in P. destruct P as (_ & t & Ht). discriminate Ht.
Qed.

Lemma parseArgs_flag_without_value_witness :
  let o := get "salt" (parseArgs (["schedule"]%string
                                  ++ flag "salt" :: ["--delay"; "0"]%string)) in
  o = Flag /\
  mkSalt {| Date_now := 0; Math_random := "0.5" |} o
    = Err (TypeError "provided.startsWith is not a function") /\
  forall w id opts_interval fuel e,
    fst (cmdVerify w id opts_interval o fuel initial) <> Threw e.
Proof.
  apply (parseArgs_flag_without_value ["schedule"]%string
           ["--delay"; "0"]%string "salt").
  - discriminate.
  - right. exists "--delay"%string, ["0"%string]. split; reflexivity.
  - cbn. intros [H|[H|[]]]; discriminate H.
Defined.

(** X19. Once [verify] has its identifier, and as long as the timelock
    answers the reads, the polling (from the reading of the interval to the
    end of the loop) ends in one of three ways: it returns an object for
    that identifier, with [ready] true or else with [done] true and
    [pending] false; or it throws the timeout error, which takes a timeout
    that is a number; or it is still polling.  It never returns with both
    [ready] and [done] false. *)
Theorem cmdVerify_outcomes (w : World) (id : string)
        (opts_interval opts_timeout : optval) (fuel : nat) :
  match fst (cmdVerify w id opts_interval opts_timeout fuel initial) with
  | Returned r =>
      opId r = id /\
      (ready r = true \/ (done r = true /\ pending r = false))
  | Threw e => e = Timeout /\ exists t, parseInt opts_timeout = Num t \/
                                        (opt_truthy opts_timeout = false /\ t = 600)
  | StillPolling => True
  end.
Proof.
  pose proof (poll_outcome w id (interval_of opts_interval)
                (timeout_of opts_timeout) (clock w 0) fuel
                (at_poll 0 [EvClock (clock w 0)])) as P.
  change (cmdVerify w id opts_interval opts_timeout fuel initial)
    with (poll w id (interval_of opts_interval) (timeout_of opts_timeout)
            (clock w 0) fuel (at_poll 0 [EvClock (clock w 0)])).
  destruct (fst (poll _ _ _ _ _ _ _)) as [r|e|]; [exact P| |exact I].
  destruct P as (He & t & Ht). split; [exact He|]. exists t.
  unfold timeout_of in Ht. destruct (opt_truthy opts_timeout).
  - left. exact Ht.
  - right. split; [reflexivity|]. injection Ht as <-. reflexivity.
Qed.

(** *** The salt *)

Lemma all_digits_no_0x (s : string) :
  all_digits s = true -> String.prefix "0x" s = false.
Proof.
  unfold all_digits. intros H. apply andb_true_iff in H. destruct H as [_ H].
  destruct (String.prefix "0x" s) eqn:P; [|reflexivity].
  apply prefix_correct in P.
  destruct s as [|c1 [|c2 r]]; cbn in P; try discriminate.
  injection P as -> -> _. cbn in H. discriminate.
Qed.

(** A call of a property the library does not have never returns. *)
Lemma call_undefined_throws {A B} (name : string) (arg : result A) (b : B) :
  call_undefined name arg <> Ok b.
Proof. unfold call_undefined. destruct arg; discriminate. Qed.

(** [BigNumber.from] takes a decimal numeral. *)
Lemma BigNumber_from_digits (s : string) :
  all_digits s = true -> BigNumber_from s = Ok {| BigNumber_text := s |}.
Proof.
  intros H. unfold all_digits in H. apply andb_true_iff in H.
  destruct H as [Hne Hd].
  destruct s as [|c r]; [discriminate|]. clear Hne.
  assert (Hc : is_digit c = true).
  { cbn [list_ascii_of_string forallb] in Hd.
    apply andb_true_iff in Hd. apply Hd. }
  assert (Hu : unsigned (String c r) = String c r).
  { destruct (Ascii.eqb_spec c "-") as [->|Hm]; [discriminate Hc|].
    unfold unsigned. destruct c as [[] [] [] [] [] [] [] []]; try reflexivity.
    contradiction Hm. reflexivity. }
  unfold BigNumber_from, matches_decimal. rewrite Hu.
  change is_decimal_digit with is_digit. rewrite Hd.
  rewrite orb_true_r. reflexivity.
Qed.

(** X20. [mkSalt] returns the text typed after [--salt] exactly when that
    text begins with "0x" (and then whatever follows, it is not checked):
    no other text comes back as it was typed. *)
Theorem mkSalt_keeps_only_0x_salts (env : Env) (s : string) :
  mkSalt env (Value s) = Ok s <-> String.prefix "0x" s = true.
Proof.
  unfold mkSalt. cbn [opt_truthy]. split.
  - destruct (String.eqb_spec s "") as [->|Hs]; cbn [negb].
    + intros E. exfalso. exact (call_undefined_throws _ _ _ E).
    + destruct (String.prefix "0x" s) eqn:P; [reflexivity|].
      intros E. exfalso. exact (call_undefined_throws _ _ _ E).
  - intros P. destruct (String.eqb_spec s "") as [->|Hs]; [discriminate|].
    cbn [negb]. rewrite P. reflexivity.
Qed.

(** X21. A salt typed in decimal gives no salt: [BigNumber.from] takes it
    for a number, and then [ethers.hexlify], which is no function of
    [hre.ethers], throws a [TypeError]. *)
Theorem mkSalt_decimal_salt (env : Env) (s : string) :
  all_digits s = true ->
  BigNumber_from s = Ok {| BigNumber_text := s |} /\
  mkSalt env (Value s) = Err (TypeError "ethers.hexlify is not a function").
Proof.
  intros H. pose proof (all_digits_no_0x s H) as P.
  pose proof (BigNumber_from_digits s H) as Hb.
  split; [exact Hb|].
  unfold all_digits in H. apply andb_true_iff in H. destruct H as [Hne _].
  unfold mkSalt. cbn [opt_truthy]. rewrite Hne, P.
  unfold call_undefined. rewrite Hb. reflexivity.
Qed.

Lemma mkSalt_decimal_salt_witness :
  BigNumber_from "123" = Ok {| BigNumber_text := "123" |} /\
  mkSalt {| Date_now := 0; Math_random := "0.5" |} (Value "123")
    = Err (TypeError "ethers.hexlify is not a function").
Proof.
  apply (mkSalt_decimal_salt {| Date_now := 0; Math_random := "0.5" |} "123").
  reflexivity.
Defined.

End CommandLineFacts.

(** ** The identifier functions and the demo script *)

Section DemoMainFacts.

Import Ethers AbiCoder DemoVerify DemoMain.

(** X22. [computeOpIdSingle] and [computeOpIdBatch] return for no input:
    whatever the five arguments are, and in either version of the library,
    each throws the [TypeError] of its first statement,
    [new ethers.AbiCoder.defaultAbiCoder()]; so does [computeOpIdBatch] when
    [datasHex] is no array or holds what is no hex string, which the
    statements further down would turn down. *)
Theorem computeOpId_always_throws (lib : version)
        (a b dataHex predecessorHex saltHex : jsval) :
  computeOpIdSingle lib a b dataHex predecessorHex saltHex
  = Err (TypeError (new_defaultAbiCoder_error lib)) /\
  computeOpIdBatch lib a b dataHex predecessorHex saltHex
  = Err (TypeError (new_defaultAbiCoder_error lib)).
Proof.
  unfold computeOpIdSingle, computeOpIdBatch, new_defaultAbiCoder.
  cbn [bind]. split; reflexivity.
Qed.

(** X27. The demo script exits with code 1 on every run: without an
    argument, without a file, on a fixture it cannot read or whose format
    it does not know, when decoding throws, and also when it gets as far
    as an identifier function, for that throws and the [catch] of [main]
    exits with 1.  It never exits with 0 or 2. *)
Theorem main_always_exits_1 (lib : version)
        (decodes : jsval -> jsval -> bool) (run : Run) :
  main lib decodes run = 1.
Proof.
  destruct run as [| | |f]; try reflexivity. cbn [main].
  assert (Single :
    (if same_string "single" (mode f)
     then if decoded lib decodes (signature f) (data f)
          then exit_of (computeOpIdSingle lib (target f) (value f) (data f)
                          JNull (salt_used f)) (recorded_opId f)
          else 1
     else 1) = 1).
  { destruct (same_string "single" (mode f)); [|reflexivity].
    destruct (decoded lib decodes (signature f) (data f)); reflexivity. }
  destruct (samples f) as [ss|]; [|exact Single].
  destruct (batch f) as [b|]; [|exact Single].
  cbv zeta. destruct (forallb _ ss); reflexivity.
Qed.

End DemoMainFacts.
